(** * automi: operators and collectors of the stream runtime

    A shallow embedding of the Go sources

      - operators/binary  (BinaryOperator: New, setters, Exec, doOp)
      - operators/stream  (StreamOperator: New, setters, Exec)
      - collectors/null   (NullCollector: Null, SetInput, Open)
      - util              (Logfn)
      - examples/batch/sum (the CSV pipeline)

    Go values of type [interface{}] are the inductive [value].  A goroutine
    is a function of a schedule: every [select] statement of the source
    consumes one bit of the schedule, [true] when the channel case fires and
    [false] when the [<-ctx.Done()] case fires; a schedule that runs out
    leaves the goroutine blocked in that [select] for ever. *)

From Stdlib Require Import ZArith QArith Qabs Ascii String.
From stdpp Require Import base option list strings gmap fin_maps.

Local Open Scope string_scope.
Local Open Scope Z_scope.
Local Open Scope list_scope.

(** ** Values of type [interface{}] *)

(** Kinds of [api.StreamError] named by the data model. *)
Inductive ErrKind := General | Cancel | Panic.

(** The keys of the entries of a Go map that a lookup finds again: ints and
    strings.  A key that no lookup finds (a NaN float) is no entry of the
    [gmap]; it only shows in what [MapKeys] lists, see [reflect.key_order]. *)
Inductive key :=
| KInt (n : Z)
| KStr (s : string).

Global Instance key_eq_dec : EqDecision key.
Proof. solve_decision. Defined.

Definition key_to_sum (k : key) : Z + string :=
  match k with KInt n => inl n | KStr s => inr s end.

Definition key_of_sum (x : Z + string) : key :=
  match x with inl n => KInt n | inr s => KStr s end.

Global Instance key_countable : Countable key.
Proof.
  refine (inj_countable' key_to_sum key_of_sum _).
  intros []; reflexivity.
Defined.

#[local] Set Warnings "-register-all".

Inductive value :=
| Nil                                           (* the nil interface *)
| Int (n : Z)                                   (* int *)
| Float64 (q : Q)                               (* float64, as the rational it denotes *)
| Str (s : string)                              (* string *)
| Slice (xs : list value)                       (* []T *)
| Array (xs : list value)                       (* [n]T *)
| Map (m : gmap key value)                      (* map[K]V *)
| KV (k v : value)                              (* tuple.KV{Key, Value} *)
| StreamError (kind : ErrKind) (msg : string).  (* api.StreamError *)

Definition key_value (k : key) : value :=
  match k with KInt n => Int n | KStr s => Str s end.

(** ** Channels *)

(** A channel is what was made ([cap]), the values sent on it so far, in
    order ([sent]), and whether it was closed.  A nil channel is [None] in
    the field that holds it. *)
Record chan (A : Type) := mkChan {
  cap : nat;
  sent : list A;
  closed : bool
}.
Arguments mkChan {A}.
Arguments cap {A}.
Arguments sent {A}.
Arguments closed {A}.

(** [make(chan A, n)] *)
Definition make {A} (n : nat) : chan A := mkChan n [] false.

(** How a goroutine leaves its body. *)
Inductive status :=
| Returned                 (* the function returned *)
| Blocked                  (* blocked for ever in a channel operation *)
| Panicked (msg : string). (* a run-time panic *)

(** [c <- v] outside a [select].  On a nil channel it blocks for ever and on a
    closed one it panics.  While fewer than [cap] values were ever sent there
    is room in the buffer, so the send completes; past that it waits for a
    receiver, which this model does not provide. *)
Definition send {A} (c : option (chan A)) (v : A) : status * option (chan A) :=
  match c with
  | None => (Blocked, None)
  | Some ch =>
      if closed ch then (Panicked "send on closed channel", c)
      else if (length (sent ch) <? cap ch)%nat
           then (Returned, Some (mkChan (cap ch) (sent ch ++ [v]) false))
           else (Blocked, c)
  end.

(** [case c <- v:] chosen by a [select]: the schedule says the send was
    ready. *)
Definition select_send {A} (c : option (chan A)) (v : A) : status * option (chan A) :=
  match c with
  | None => (Blocked, None)
  | Some ch =>
      if closed ch then (Panicked "send on closed channel", c)
      else (Returned, Some (mkChan (cap ch) (sent ch ++ [v]) false))
  end.

(** [close(c)] *)
Definition close {A} (c : option (chan A)) : status * option (chan A) :=
  match c with
  | None => (Panicked "close of nil channel", None)
  | Some ch =>
      if closed ch then (Panicked "close of closed channel", c)
      else (Returned, Some (mkChan (cap ch) (sent ch) true))
  end.

(** A receive-only channel handed to [SetInput] is given by what its sender
    puts on it: the items, in order, after which the sender closes it. *)
Definition in_chan := list value.

(** An [error] value made by [fmt.Errorf]. *)
Inductive error := Errorf (msg : string).

(** ** Context, log and error functions *)

(** Function values are known by a name; calling one is an event. *)
Inductive LogFunc := LogFn (id : nat).
Inductive ErrorFunc := ErrFn (id : nat).

Inductive event :=
| Logged (f : LogFunc) (msg : value)
| Reported (f : ErrorFunc) (err : value).

Record Context := mkContext {
  ctx_logf : option LogFunc;
  ctx_errf : option ErrorFunc
}.

Module util.

(** [Logfn]: if f is not nil, invokes f(msg). *)
Definition Logfn (f : option LogFunc) (msg : value) : list event :=
  match f with
  | Some f => [Logged f msg]
  | None => []
  end.

End util.

Module autoctx.

(** Modelled from the spec: package api/context is not among the sources.
    "Context keys: logFunc, errFunc; absent keys default to no-op." *)
Definition GetLogFunc (ctx : Context) : option LogFunc := ctx_logf ctx.

(** Modelled from the spec: see [GetLogFunc]. *)
Definition GetErrFunc (ctx : Context) : option ErrorFunc := ctx_errf ctx.

(** Modelled from the spec: "reported via the err fn"; without an err fn the
    call does nothing. *)
Definition Err (f : option ErrorFunc) (err : value) : list event :=
  match f with
  | Some f => [Reported f err]
  | None => []
  end.

End autoctx.

(** ** operators/binary *)

Module binary.

(** [api.BinOperation]: [Apply(ctx, op1, op2)]; [None] when the call
    panics (a failed type assertion of the user's function, say). *)
Definition BinOperation := Context -> value -> value -> option value.

(** BinaryOperator represents an operator that knows how to run a binary
    operation such as aggregation or reduction. *)
Record BinaryOperator := mkBinaryOperator {
  op : option BinOperation;
  state : value;
  concurrency : Z;
  input : option in_chan;
  output : option (chan value);
  logf : option LogFunc;
  errf : option ErrorFunc
}.

Definition with_op (o : BinaryOperator) x :=
  mkBinaryOperator x (state o) (concurrency o) (input o) (output o) (logf o) (errf o).
Definition with_state (o : BinaryOperator) x :=
  mkBinaryOperator (op o) x (concurrency o) (input o) (output o) (logf o) (errf o).
Definition with_concurrency (o : BinaryOperator) x :=
  mkBinaryOperator (op o) (state o) x (input o) (output o) (logf o) (errf o).
Definition with_input (o : BinaryOperator) x :=
  mkBinaryOperator (op o) (state o) (concurrency o) x (output o) (logf o) (errf o).
Definition with_output (o : BinaryOperator) x :=
  mkBinaryOperator (op o) (state o) (concurrency o) (input o) x (logf o) (errf o).
Definition with_logf (o : BinaryOperator) x :=
  mkBinaryOperator (op o) (state o) (concurrency o) (input o) (output o) x (errf o).
Definition with_errf (o : BinaryOperator) x :=
  mkBinaryOperator (op o) (state o) (concurrency o) (input o) (output o) (logf o) x.

(** [new(BinaryOperator)]: every field at its zero value. *)
Definition zero : BinaryOperator :=
  mkBinaryOperator None Nil 0 None None None None.

(** New creates a new binary operator. *)
Definition New : BinaryOperator :=
  let o := zero in
  let o := with_concurrency o 1 in
  let o := with_output o (Some (make 1024)) in
  o.

(** SetOperation sets the operation to execute. *)
Definition SetOperation (o : BinaryOperator) (f : option BinOperation) :=
  with_op o f.

(** SetInitialState sets an initial value used with the first streamed item. *)
Definition SetInitialState (o : BinaryOperator) (val : value) :=
  with_state o val.

(** SetConcurrency sets the concurrency level. *)
Definition SetConcurrency (o : BinaryOperator) (concurr : Z) :=
  let o := with_concurrency o concurr in
  if (concurrency o <? 1)%Z then with_concurrency o 1 else o.

(** SetInput sets the input channel for the executor node. *)
Definition SetInput (o : BinaryOperator) (i : option in_chan) :=
  with_input o i.

(** GetOutput returns the output channel for the executor node. *)
Definition GetOutput (o : BinaryOperator) : option (chan value) := output o.

(** What a goroutine has done when it stops: how it stopped, the operator as
    it left it, and the calls it made to the log and error functions.  A
    goroutine blocked for ever in a plain send on a full output is [Blocked]
    as well. *)
Record run := mkRun {
  run_status : status;
  run_op : BinaryOperator;
  run_events : list event
}.

(** The [for { select { ... } }] of [doOp].  [items] is what is still to come
    on [o.input]. *)
Fixpoint doOp_loop (f : BinOperation) (exeCtx : Context) (o : BinaryOperator)
    (items : in_chan) (sched : list bool) (evs : list event) : run :=
  match sched with
  | [] => mkRun Blocked o evs
  | false :: _ =>
      (* case <-exeCtx.Done(): return *)
      mkRun Returned o evs
  | true :: sched' =>
      (* case item, opened := <-o.input *)
      match items with
      | [] => mkRun Returned o evs          (* !opened: return *)
      | item :: rest =>
          match f exeCtx (state o) item with
          | None => mkRun (Panicked "panic in BinOperation.Apply") o evs
          | Some s =>
              let o := with_state o s in
              match state o with
              | Nil => doOp_loop f exeCtx o rest sched' evs
              | StreamError _ _ as val =>
                  let evs := evs ++ util.Logfn (logf o) val in
                  let evs := evs ++ autoctx.Err (errf o) val in
                  doOp_loop f exeCtx o rest sched' evs
              | _ => doOp_loop f exeCtx o rest sched' evs
              end
          end
      end
  end.

(** doOp is a helper function that executes the operation.  Its deferred
    function (log, then [cancel()]) runs when the loop returns and while a
    panic unwinds. *)
Definition doOp (o : BinaryOperator) (ctx : Context) (items : in_chan)
    (sched : list bool) : run :=
  match op o with
  | None =>
      mkRun Returned o (util.Logfn (logf o) (Str "Binary operator has no operation"))
  | Some f =>
      let exeCtx := ctx in                  (* context.WithCancel(ctx) *)
      let r := doOp_loop f exeCtx o items sched [] in
      match run_status r with
      | Blocked => r
      | st =>
          mkRun st (run_op r)
            (run_events r ++ util.Logfn (logf (run_op r)) (Str "Binary operator cancelling"))
      end
  end.

(** The deferred function of the goroutine started by [Exec]:
    [o.output <- o.state; close(o.output); util.Logfn(...)].  When it runs
    while a panic unwinds, the goroutine still ends in that panic. *)
Definition Exec_deferred (r : run) : run :=
  let o := run_op r in
  let after st' := match run_status r with Returned => st' | st => st end in
  match send (output o) (state o) with
  | (Returned, out) =>
      match close out with
      | (Returned, out) =>
          mkRun (after Returned) (with_output o out)
            (run_events r ++ util.Logfn (logf o) (Str "Binary operator done"))
      | (st, out) => mkRun (after st) (with_output o out) (run_events r)
      end
  | (st, out) => mkRun (after st) (with_output o out) (run_events r)
  end.

(** The goroutine started by [Exec]. *)
Definition Exec_go (o : BinaryOperator) (ctx : Context) (items : in_chan)
    (sched : list bool) : run :=
  let r := doOp o ctx items sched in
  match run_status r with
  | Blocked => r
  | _ => Exec_deferred r
  end.

(** The result of [Exec]: the error it returns, and the goroutine it started
    ([None] when it started none) run as far as the schedule goes. *)
Record exec := mkExec {
  exec_err : option error;
  exec_go : option status;
  exec_op : BinaryOperator;
  exec_events : list event
}.

(** Exec executes the associated operation. *)
Definition Exec (o : BinaryOperator) (ctx : Context) (sched : list bool) : exec :=
  let o := with_logf o (autoctx.GetLogFunc ctx) in
  let o := with_errf o (autoctx.GetErrFunc ctx) in
  let evs := util.Logfn (logf o) (Str "Binary operator starting") in
  match input o with
  | None => mkExec (Some (Errorf "No input channel found")) None o evs
  | Some items =>
      let r := Exec_go o ctx items sched in
      mkExec None (Some (run_status r)) (run_op r) (evs ++ run_events r)
  end.

(** The methods of the operator, as calls. *)
Inductive call :=
| CallSetOperation (f : option BinOperation)
| CallSetInitialState (val : value)
| CallSetConcurrency (concurr : Z)
| CallSetInput (i : option in_chan)
| CallExec (ctx : Context) (sched : list bool).

Definition do_call (o : BinaryOperator) (c : call) : BinaryOperator :=
  match c with
  | CallSetOperation f => SetOperation o f
  | CallSetInitialState val => SetInitialState o val
  | CallSetConcurrency concurr => SetConcurrency o concurr
  | CallSetInput i => SetInput o i
  | CallExec ctx sched => exec_op (Exec o ctx sched)
  end.

(** The operator after [New] and a sequence of calls. *)
Definition after_calls (cs : list call) : BinaryOperator :=
  fold_left do_call cs New.

(** The left fold [op(...op(op(s, x1), x2)..., xn)], as long as no
    application panics. *)
Fixpoint left_fold (f : BinOperation) (ctx : Context) (xs : list value) (s : value)
    : option value :=
  match xs with
  | [] => Some s
  | x :: xs' =>
      match f ctx s x with
      | None => None
      | Some s' => left_fold f ctx xs' s'
      end
  end.

(** The state a run that reads the whole input ends in. *)
Definition final_state (o : BinaryOperator) (ctx : Context) (items : in_chan)
    : option value :=
  match op o with
  | None => Some (state o)
  | Some f => left_fold f ctx items (state o)
  end.

End binary.

(** ** reflect, as far as the stream operator uses it *)

Module reflect.

Inductive Kind := Int_ | Float64_ | String_ | Slice_ | Array_ | Map_ | Struct_.

(** [reflect.TypeOf(i).Kind()].  [TypeOf] of the nil interface is the nil
    [Type], on which [Kind()] dereferences nil: [None]. *)
Definition TypeOf_Kind (i : value) : option Kind :=
  match i with
  | Nil => None
  | Int _ => Some Int_
  | Float64 _ => Some Float64_
  | Str _ => Some String_
  | Slice _ => Some Slice_
  | Array _ => Some Array_
  | Map _ => Some Map_
  | KV _ _ => Some Struct_
  | StreamError _ _ => Some Struct_
  end.

(** The elements [Index(0)], ..., [Index(Len()-1)] of an array or slice. *)
Definition elements (i : value) : list value :=
  match i with
  | Slice xs | Array xs => xs
  | _ => []
  end.

(** The map behind a value of kind [Map]. *)
Definition entries (i : value) : gmap key value :=
  match i with
  | Map m => m
  | _ => ∅
  end.

(** [MapKeys] returns the keys of a map in an order the language leaves open:
    an order is any function picking a list of keys for each map.  The list
    may hold a key that [MapIndex] does not find again, as for a NaN key: that
    is a key the [gmap] does not hold.  One order stands for one call: a run
    on which the same map arrives twice and is listed in two orders is not a
    run of this model, and the properties of runs over several items below
    are stated for items that are not maps. *)
Definition key_order := gmap key value -> list key.

End reflect.

(** ** operators/stream *)

Module streamop.

(** StreamOperator is an operator that takes streamed items of type map,
    array, or slice and unpacks and emits each item individually
    downstream. *)
Record StreamOperator := mkStreamOperator {
  input : option in_chan;
  output : option (chan value);
  logf : option LogFunc
}.

Definition with_input (r : StreamOperator) x := mkStreamOperator x (output r) (logf r).
Definition with_output (r : StreamOperator) x := mkStreamOperator (input r) x (logf r).
Definition with_logf (r : StreamOperator) x := mkStreamOperator (input r) (output r) x.

(** [new(StreamOperator)] *)
Definition zero : StreamOperator := mkStreamOperator None None None.

(** New creates a *StreamOperator value. *)
Definition New : StreamOperator :=
  let r := zero in
  let r := with_output r (Some (make 1024)) in
  r.

(** SetInput sets the input channel for the executor node. *)
Definition SetInput (r : StreamOperator) (i : option in_chan) := with_input r i.

(** GetOutput returns the output channel of the executer node. *)
Definition GetOutput (r : StreamOperator) : option (chan value) := output r.

(** Whether a loop body goes on to the next iteration or leaves the
    goroutine. *)
Inductive flow :=
| Next
| Leave (st : status).

(** [for i := 0; i < itemVal.Len(); i++ { select { case r.output <- j: ... } }] *)
Fixpoint emit_elements (js : list value) (out : option (chan value))
    (sched : list bool) : flow * option (chan value) * list bool :=
  match js with
  | [] => (Next, out, sched)
  | j :: js' =>
      match sched with
      | [] => (Leave Blocked, out, [])
      | false :: sched' => (Leave Returned, out, sched')   (* <-exeCtx.Done() *)
      | true :: sched' =>
          match select_send out j with
          | (Returned, out) => emit_elements js' out sched'
          | (st, out) => (Leave st, out, sched')
          end
      end
  end.

(** [for _, key := range itemVal.MapKeys() { val := itemVal.MapIndex(key); select { ... } }].
    [MapIndex] of a key the map does not hold is the zero Value, whose
    [Interface()] panics. *)
Fixpoint emit_entries (m : gmap key value) (keys : list key) (out : option (chan value))
    (sched : list bool) : flow * option (chan value) * list bool :=
  match keys with
  | [] => (Next, out, sched)
  | k :: keys' =>
      match m !! k with
      | None => (Leave (Panicked "reflect: call of reflect.Value.Interface on zero Value"), out, sched)
      | Some val =>
          match sched with
          | [] => (Leave Blocked, out, [])
          | false :: sched' => (Leave Returned, out, sched')
          | true :: sched' =>
              match select_send out (KV (key_value k) val) with
              | (Returned, out) => emit_entries m keys' out sched'
              | (st, out) => (Leave st, out, sched')
              end
          end
      end
  end.

(** The body of [case item, opened := <-r.input] once an item is there. *)
Definition emit_item (MapKeys : reflect.key_order) (item : value)
    (out : option (chan value)) (sched : list bool)
    : flow * option (chan value) * list bool :=
  match reflect.TypeOf_Kind item with
  | None => (Leave (Panicked "invalid memory address or nil pointer dereference"), out, sched)
  | Some reflect.Array_ | Some reflect.Slice_ =>
      emit_elements (reflect.elements item) out sched
  | Some reflect.Map_ =>
      emit_entries (reflect.entries item) (MapKeys (reflect.entries item)) out sched
  | Some _ => emit_elements [item] out sched
  end.

(** The [for { select { ... } }] of the goroutine. *)
Fixpoint Exec_loop (MapKeys : reflect.key_order) (items : in_chan)
    (out : option (chan value)) (sched : list bool) : status * option (chan value) :=
  match sched with
  | [] => (Blocked, out)
  | false :: _ => (Returned, out)                            (* <-exeCtx.Done() *)
  | true :: sched' =>
      match items with
      | [] => (Returned, out)                                (* !opened *)
      | item :: rest =>
          match emit_item MapKeys item out sched' with
          | (Next, out, sched'') => Exec_loop MapKeys rest out sched''
          | (Leave st, out, _) => (st, out)
          end
      end
  end.

Record run := mkRun {
  run_status : status;
  run_op : StreamOperator;
  run_events : list event
}.

(** The goroutine started by [Exec].  Its deferred function runs when the
    loop returns and also while a panic unwinds; it does not run while the
    goroutine is blocked. *)
Definition Exec_go (MapKeys : reflect.key_order) (r : StreamOperator) (items : in_chan)
    (sched : list bool) : run :=
  match Exec_loop MapKeys items (output r) sched with
  | (Blocked, out) => mkRun Blocked (with_output r out) []
  | (st, out) =>
      let evs := util.Logfn (logf r) (Str "Stream operator closing") in
      match close out with
      | (Returned, out) => mkRun st (with_output r out) evs
      | (st', out) =>
          mkRun (match st with Returned => st' | _ => st end) (with_output r out) evs
      end
  end.

Record exec := mkExec {
  exec_err : option error;
  exec_go : option status;
  exec_op : StreamOperator;
  exec_events : list event
}.

(** Exec is the execution starting point for the executor node. *)
Definition Exec (MapKeys : reflect.key_order) (r : StreamOperator) (ctx : Context)
    (sched : list bool) : exec :=
  let r := with_logf r (autoctx.GetLogFunc ctx) in
  let evs := util.Logfn (logf r) (Str "Stream operator starting") in
  match input r with
  | None => mkExec (Some (Errorf "No input channel found")) None r evs
  | Some items =>
      let g := Exec_go MapKeys r items sched in
      mkExec None (Some (run_status g)) (run_op g) (evs ++ run_events g)
  end.

End streamop.

(** ** collectors/null *)

Module collectors.

Record NullCollector := mkNullCollector {
  input : option in_chan;
  logf : option LogFunc
}.

(** [new(NullCollector)] *)
Definition Null : NullCollector := mkNullCollector None None.

Definition SetInput (s : NullCollector) (i : option in_chan) : NullCollector :=
  mkNullCollector i (logf s).

(** The [for { select { ... } }] of the goroutine.  A receive from a nil
    channel is never ready: on a bit that picks the input, nothing fires and
    the [select] goes on waiting. *)
Fixpoint Open_loop (i : option in_chan) (sched : list bool) : status :=
  match sched with
  | [] => Blocked
  | false :: _ => Returned                  (* <-ctx.Done() *)
  | true :: sched' =>
      match i with
      | None => Open_loop None sched'
      | Some [] => Returned                 (* !opened *)
      | Some (_ :: rest) => Open_loop (Some rest) sched'
      end
  end.

(** What [Open] leaves behind: the channel it returned, the goroutine it
    started, the collector and the log calls. *)
Record opened := mkOpened {
  open_result : option (chan error);
  open_go : status;
  open_collector : NullCollector;
  open_events : list event
}.

(** Open opens the node to start collecting. *)
Definition Open (s : NullCollector) (ctx : Context) (sched : list bool) : opened :=
  let result := Some (make 0) in
  let s := mkNullCollector (input s) (autoctx.GetLogFunc ctx) in
  let evs := util.Logfn (logf s) (Str "Opening null collector") in
  match Open_loop (input s) sched with
  | Returned =>
      (* the deferred function *)
      let evs := evs ++ util.Logfn (logf s) (Str "Closing null collector") in
      let '(st, result) := close result in
      mkOpened result st s evs
  | st => mkOpened result st s evs
  end.

End collectors.

(** ** api.Collector *)

(** When a run of the null collector can return: the context is done at some
    point of the schedule, or the schedule reaches past the items of a
    non-nil input, to its close. *)
Definition input_ends (i : option in_chan) (sched : list bool) : Prop :=
  In false sched \/
  match i with
  | Some items => (length items < length sched)%nat
  | None => False
  end.

Module api.

(** Modelled from the spec: the interface [api.Collector] is not among the
    sources.  "Collector contract: accepts one input channel via SetInput;
    Open(ctx) returns a single-shot error channel."  [input_of] is the input
    channel the collector holds; [Open] gives the channel it returns, as its
    goroutine leaves it, and how that goroutine ended. *)
Class Collector (C : Type) := {
  SetInput : C -> option in_chan -> C;
  input_of : C -> option in_chan;
  Open : C -> Context -> list bool -> option (chan error) * status
}.


End api.

#[global] Instance NullCollector_Collector : api.Collector collectors.NullCollector := {
  api.SetInput := collectors.SetInput;
  api.input_of := collectors.input;
  api.Open := fun s ctx sched =>
    let r := collectors.Open s ctx sched in
    (collectors.open_result r, collectors.open_go r)
}.

(** ** float32 and float64 values

    A finite float is the rational it denotes.  Rounding is to nearest, ties
    to even, at 24 or 53 significant bits; the exponent range is not
    modelled (no overflow and no subnormals), which the values of the
    example stay far from. *)

Module float.

(** The integer nearest to [n / d] for [0 < d], ties to even. *)
Definition div_nearest_even (n d : Z) : Z :=
  let q := n / d in
  let r := n mod d in
  match 2 * r ?= d with
  | Lt => q
  | Gt => q + 1
  | Eq => if Z.even q then q else q + 1
  end.

(** [x] rounded to [prec] significant bits. *)
Definition round (prec : Z) (x : Q) : Q :=
  let n := Qnum x in
  let d := Z.pos (Qden x) in
  if n =? 0 then 0%Q
  else
    let a := Z.abs n in
    let l := Z.log2 a - Z.log2 d in
    (* e is the exponent of the leading bit: 2^e <= a/d < 2^(e+1) *)
    let e := if a * 2 ^ Z.max 0 (- l) <? d * 2 ^ Z.max 0 l then l - 1 else l in
    let s := prec - 1 - e in
    let m := div_nearest_even (a * 2 ^ Z.max 0 s) (d * 2 ^ Z.max 0 (- s)) in
    Qred (inject_Z (Z.sgn n * m) * Qpower 2 (- s)).

Definition to_float32 : Q -> Q := round 24.
Definition to_float64 : Q -> Q := round 53.

(** [x + y] on float64 *)
Definition add (x y : Q) : Q := to_float64 (x + y).

End float.

(** ** The parts of the Go library the example calls *)

Module gostrings.

(** [strings.Split(s, sep)] for a separator of one byte: the pieces of [s]
    between the separators, [cur] being the piece read so far. *)
Fixpoint split_at (sep : ascii) (s : string) (cur : string) : list string :=
  match s with
  | EmptyString => [cur]
  | String c s' =>
      if Ascii.eqb c sep then cur :: split_at sep s' EmptyString
      else split_at sep s' (cur +:+ String c EmptyString)
  end.

Definition Split (s : string) (sep : ascii) : list string :=
  split_at sep s EmptyString.

End gostrings.

Module strconv.

(** Scanner state of a decimal literal: the digits read as an integer, the
    number of digits after the point, whether the point and whether any digit
    was seen. *)
Record scan := mkScan {
  mant : Z;
  frac : Z;
  point : bool;
  digit : bool
}.

Fixpoint scan_decimal (s : string) (st : scan) : option scan :=
  match s with
  | EmptyString => if digit st then Some st else None
  | String c s' =>
      let n := Z.of_nat (nat_of_ascii c) in
      if (48 <=? n) && (n <=? 57) then
        scan_decimal s'
          (mkScan (10 * mant st + (n - 48))
                  (if point st then frac st + 1 else frac st) (point st) true)
      else if (n =? 46) && negb (point st) then
        scan_decimal s' (mkScan (mant st) (frac st) true (digit st))
      else None
  end.

(** [strconv.ParseFloat(s, 32)] on an optional sign followed by decimal digits
    with an optional point, the only form the example feeds it: the float32
    nearest to the literal, returned as a float64.  On any other text the
    result is 0 and a syntax error. *)
Definition ParseFloat32 (s : string) : Q * option error :=
  let '(neg, body) :=
    match s with
    | String "-" s' => (true, s')
    | String "+" s' => (false, s')
    | _ => (false, s)
    end in
  match scan_decimal body (mkScan 0 0 false false) with
  | Some st =>
      let q := Qred (Qmake (mant st) (Z.to_pos (10 ^ frac st))) in
      (float.to_float32 (if neg then Qopp q else q), None)
  | None => (0%Q, Some (Errorf "strconv.ParseFloat: invalid syntax"))
  end.

End strconv.

(** ** The stream and its stages *)

Module stream.

(** A function given to [Map]: [None] when the call panics. *)
Definition UnFunc := value -> option value.

(** Modelled from the spec: the unary operator (operators/unary) is not among
    the sources.  "Result interpretation": nil emits nothing, a bare value is
    emitted, a StreamError emits nothing. *)
Definition emitted (res : value) : list value :=
  match res with
  | Nil => []
  | StreamError _ _ => []
  | v => [v]
  end.

(** Modelled from the spec: [Map] of the stream (not among the sources):
    "apply a user-supplied transform to each input item"; "with N=1, order is
    preserved".  The input is what the upstream emits before it closes. *)
Fixpoint Map (f : UnFunc) (xs : list value) : option (list value) :=
  match xs with
  | [] => Some []
  | x :: xs' =>
      match f x with
      | None => None
      | Some y =>
          match Map f xs' with
          | None => None
          | Some ys => Some (emitted y ++ ys)
          end
      end
  end.

(** Modelled from the spec: the batch operator (operators/batch) is not among
    the sources.  "Buffers the entire upstream until input closes, producing a
    single downstream item: an ordered slice of all collected items." *)
Definition Batch (xs : list value) : option (list value) := Some [Slice xs].

(** Modelled from the spec: [batch.SumFunc] is not among the sources.  "Sum -
    numeric reduction; requires elements convertible to a common numeric
    width; fails with General on heterogeneous types."  The common width is
    float64 and the sum runs from the first element to the last. *)
Fixpoint sum_all (xs : list value) (total : Q) : value :=
  match xs with
  | [] => Float64 total
  | Float64 q :: xs' => sum_all xs' (float.add total q)
  | Int n :: xs' => sum_all xs' (float.add total (float.to_float64 (inject_Z n)))
  | _ :: _ => StreamError General "unsupported type for Sum"
  end.

(** Modelled from the spec: see [sum_all]. *)
Definition SumFunc : UnFunc := fun batch =>
  match batch with
  | Slice xs | Array xs => Some (sum_all xs 0%Q)
  | _ => Some (StreamError General "Sum expects a slice or an array")
  end.

(** Modelled from the spec: [Sum] appends a unary operator running
    [SumFunc], as the stream's other batch functions do ([appendOp]). *)
Definition Sum (xs : list value) : option (list value) := Map SumFunc xs.

(** The stages of a stream after one another. *)
Definition andThen (xs : option (list value)) (stage : list value -> option (list value))
    : option (list value) :=
  match xs with
  | Some xs => stage xs
  | None => None
  end.

End stream.

(** ** examples/batch/sum *)

Module sum_example.

(** The rows sent on [ch] before it is closed. *)
Definition rows : list value :=
  [ Str "10452,17,12,0.71,5,0.29,0,0,17,100";
    Str "10453,14,7,0.5,7,0.5,0,0,14,100";
    Str "10454,18,8,0.44,10,0.56,0,0,18,100";
    Str "10455,27,17,0.63,10,0.37,0,0,27,100";
    Str "10456,5,3,0.6,2,0.4,0,0,5,100";
    Str "10458,52,25,0.48,27,0.52,0,0,52,100";
    Str "10459,7,5,0.71,2,0.29,0,0,7,100";
    Str "10460,27,20,0.74,7,0.26,0,0,27,100";
    Str "10461,49,26,0.53,23,0.47,0,0,49,100" ].

(** [func(row string) []string { return strings.Split(row, ",") }] *)
Definition split_row : stream.UnFunc := fun v =>
  match v with
  | Str row => Some (Slice (Str <$> gostrings.Split row ","))
  | _ => None
  end.

(** [func(data []string) float64 { f, _ := strconv.ParseFloat(data[3], 32); return f }] *)
Definition ratio : stream.UnFunc := fun v =>
  match v with
  | Slice data =>
      match data !! 3%nat with
      | Some (Str field) => Some (Float64 (fst (strconv.ParseFloat32 field)))
      | _ => None                           (* index out of range *)
      end
  | _ => None
  end.

(** What the function given to [collectors.Func] is called with, in order. *)
Definition main : option (list value) :=
  stream.andThen (stream.andThen (stream.andThen
    (stream.Map split_row rows) (stream.Map ratio)) stream.Batch) stream.Sum.

End sum_example.

(** ** The operations of the tests *)

Module goint.

(** Go's [int] is 64 bits wide and wraps around. *)
Definition wrap (z : Z) : Z := (z + 2 ^ 63) mod 2 ^ 64 - 2 ^ 63.

End goint.

Module binary_test.

(** [for _, item := range items { init += item }] *)
Fixpoint add_all (items : list value) (init : Z) : option Z :=
  match items with
  | [] => Some init
  | Int item :: items' => add_all items' (goint.wrap (init + item))
  | _ :: _ => None
  end.

(** The operation of TestBinaryOp_Exec: [op1.(int)] plus the elements of
    [op2.([]int)]. *)
Definition op_sum_slice : binary.BinOperation := fun _ op1 op2 =>
  match op1, op2 with
  | Int init, Slice items => Int <$> add_all items init
  | _, _ => None
  end.

(** The operation of BenchmarkBinaryOp_Exec and of TestStream_Reduce:
    [op1 + op2] on ints. *)
Definition op_add : binary.BinOperation := fun _ op1 op2 =>
  match op1, op2 with
  | Int val0, Int val1 => Some (Int (goint.wrap (val0 + val1)))
  | _, _ => None
  end.

(** The operation of TestBinaryOp_Params: it returns nil. *)
Definition op_nil : binary.BinOperation := fun _ _ _ => Some Nil.

(** An operation that reports every item as an error. *)
Definition op_error : binary.BinOperation := fun _ _ _ =>
  Some (StreamError General "unsupported data").

(** [context.TODO()]: no log function and no error function. *)
Definition TODO : Context := mkContext None None.

(** A context with both functions set. *)
Definition logging : Context := mkContext (Some (LogFn 0)) (Some (ErrFn 0)).

(** The operator of TestBinaryOp_Exec, with [in] as the test feeds it. *)
Definition exec_operator : binary.BinaryOperator :=
  let o := binary.New in
  let o := binary.SetInitialState o (Int 0) in
  let o := binary.SetOperation o (Some op_sum_slice) in
  binary.SetInput o (Some [Slice [Int 1]; Slice [Int 1; Int 2]; Slice [Int 1; Int 2; Int 3]]).

(** The operator [Reduce(init, f)] builds, fed by a source of [xs]. *)
Definition reduce (f : binary.BinOperation) (init : value) (xs : list value)
    : binary.BinaryOperator :=
  let o := binary.New in
  let o := binary.SetInitialState o init in
  let o := binary.SetOperation o (Some f) in
  binary.SetInput o (Some xs).

End binary_test.

(** ** What the properties are stated with *)

(** How the loop is left: the context is done, or the input was read to its
    end and found closed. *)
Inductive leaves (ys : in_chan) : list bool -> Prop :=
| leaves_done rest : leaves ys (false :: rest)
| leaves_closed rest : ys = [] -> leaves ys (true :: rest).

(** The claim of the specification that cancellation keeps the state from
    being delivered: nothing was sent on the output of a run whose context is
    done before the input is read to its end. *)
Definition cancel_short_circuits_emission : Prop :=
  forall (o : binary.BinaryOperator) (ctx : Context) (items : in_chan)
         (k : nat) (rest : list bool) (out : chan value),
    binary.op o <> None ->
    binary.input o = Some items ->
    binary.output o = Some (make 1024) ->
    (k <= length items)%nat ->
    binary.GetOutput (binary.exec_op (binary.Exec o ctx (repeat true k ++ false :: rest)))
      = Some out ->
    sent out = [].

(** The tuple sent for the key [k] of the map [m]. *)
Definition entry_tuple (m : gmap key value) (k : key) : value :=
  KV (key_value k) (default Nil (m !! k)).

(** What the operator sends for one item that is not nil. *)
Definition expansion (MapKeys : reflect.key_order) (item : value) : list value :=
  match item with
  | Slice xs | Array xs => xs
  | Map m => entry_tuple m <$> MapKeys m
  | _ => [item]
  end.

(** A schedule on which the context is never done while [items] are
    received and sent on. *)
Definition undisturbed (MapKeys : reflect.key_order) (items : list value) : list bool :=
  items ≫= (fun item => true :: repeat true (length (expansion MapKeys item))).

(** The float64 the example hands to its sink: 179180665 / 2^25, that is
    5.339999943971634. *)
Definition sum_example_total : Q := 179180665 # 33554432.

(** The claim of the specification: the sink receives one float, equal to
    5.04 to the two decimals the example prints. *)
Definition sink_receives_5_04 : Prop :=
  exists x : Q,
    sum_example.main = Some [Float64 x] /\ (Qabs (x - (504 # 100)) < 1 # 200)%Q.

(** ** What the further properties are stated with *)

Definition is_StreamError (v : value) : bool :=
  match v with
  | StreamError _ _ => true
  | _ => false
  end.

(** The successive results [g s0 x1], [g (g s0 x1) x2], ... of a total
    operation [g] over the items. *)
Fixpoint results (g : value -> value -> value) (xs : list value) (s : value)
    : list value :=
  match xs with
  | [] => []
  | x :: xs' => g s x :: results g xs' (g s x)
  end.

(** The errors handed to an error function, in the order of the calls. *)
Definition reported (evs : list event) : list value :=
  omap (fun ev => match ev with Reported _ err => Some err | Logged _ _ => None end) evs.

(** The methods of the binary operator other than [Exec]. *)
Definition is_setter (c : binary.call) : bool :=
  match c with
  | binary.CallExec _ _ => false
  | _ => true
  end.

(** One order [MapKeys] may return the keys in. *)
Definition keys_in_order : reflect.key_order := fun m => (map_to_list m).*1.

(** The receive-only view of a channel whose sender is done with it: the
    values sent, after which it is closed. *)
Definition downstream (c : option (chan value)) : option in_chan := sent <$> c.

(** The sum the operations of the tests keep: Go's [+=] on int. *)
Definition add_wrapped (init item : Z) : Z := goint.wrap (init + item).

(** The claim of the specification on when the binary operator emits: once
    anything was sent on the output, the run has read the input to its
    close. *)
Definition emits_only_after_input_closes : Prop :=
  forall (o : binary.BinaryOperator) (ctx : Context) (items : in_chan)
         (sched : list bool) (out : chan value),
    binary.input o = Some items ->
    binary.output o = Some (make 1024) ->
    binary.GetOutput (binary.exec_op (binary.Exec o ctx sched)) = Some out ->
    sent out <> [] ->
    exists rest, sched = repeat true (S (length items)) ++ rest.

(** Items the stream operator handles without [MapKeys] and whose kind the
    sources settle: ints, floats, strings, stream errors, arrays and slices. *)
Definition indexed_or_scalar (item : value) : Prop :=
  match item with
  | Nil | Map _ | KV _ _ => False
  | _ => True
  end.

(** ** stream/stream_batch.go *)

Module stream_batch.

(** The functions of package batch an operator is configured with; the
    package is not among the sources, a function is known by its name and
    argument. *)
Inductive operation :=
| GroupByKeyFunc (key : value)
| GroupByNameFunc (name : string)
| GroupByPosFunc (pos : Z)
| SortByKeyFunc (key : value).

(** An [api.Operator] as the stream builds it: [batch.New(ctx)], or
    [unary.New(ctx)] with the operation set on it, if any. *)
Inductive Operator :=
| batch_New (ctx : Context)
| unary_New (ctx : Context) (op : option operation).

(** [operator.SetOperation(op)] on a unary operator. *)
Definition SetOperation (operator : Operator) (op : operation) : Operator :=
  match operator with
  | unary_New ctx _ => unary_New ctx (Some op)
  | batch_New ctx => batch_New ctx
  end.

(** The fields of [Stream] these methods use. *)
Record Stream := mkStream {
  ctx : Context;
  ops : list Operator
}.

Definition appendOp (s : Stream) (operator : Operator) : Stream :=
  mkStream (ctx s) (ops s ++ [operator]).

Definition Batch (s : Stream) : Stream :=
  let operator := batch_New (ctx s) in
  appendOp s operator.

Definition GroupByKey (s : Stream) (key : value) : Stream :=
  let operator := unary_New (ctx s) None in
  let operator := SetOperation operator (GroupByKeyFunc key) in
  appendOp s operator.

Definition GroupByName (s : Stream) (name : string) : Stream :=
  let operator := unary_New (ctx s) None in
  let operator := SetOperation operator (GroupByNameFunc name) in
  appendOp s operator.

Definition GroupByPos (s : Stream) (pos : Z) : Stream :=
  let operator := unary_New (ctx s) None in
  let operator := SetOperation operator (GroupByPosFunc pos) in
  appendOp s operator.

Definition SortByKey (s : Stream) (key : value) : Stream :=
  let operator := unary_New (ctx s) None in
  let operator := SetOperation operator (SortByKeyFunc key) in
  appendOp s operator.

(** The methods, as calls on a stream. *)
Inductive call :=
| CallBatch
| CallGroupByKey (key : value)
| CallGroupByName (name : string)
| CallGroupByPos (pos : Z)
| CallSortByKey (key : value).

Definition do_call (s : Stream) (c : call) : Stream :=
  match c with
  | CallBatch => Batch s
  | CallGroupByKey key => GroupByKey s key
  | CallGroupByName name => GroupByName s name
  | CallGroupByPos pos => GroupByPos s pos
  | CallSortByKey key => SortByKey s key
  end.

(** The operator a call stands for in a stream whose context is [c]. *)
Definition stage (c : Context) (cl : call) : Operator :=
  match cl with
  | CallBatch => batch_New c
  | CallGroupByKey key => unary_New c (Some (GroupByKeyFunc key))
  | CallGroupByName name => unary_New c (Some (GroupByNameFunc name))
  | CallGroupByPos pos => unary_New c (Some (GroupByPosFunc pos))
  | CallSortByKey key => unary_New c (Some (SortByKeyFunc key))
  end.

End stream_batch.

(** * Properties *)

(** ** Tests of the sources, replayed *)

(** TestBinaryOp_New *)
Example TestBinaryOp_New :
  binary.output binary.New <> None /\
  binary.op binary.New = None /\
  binary.concurrency binary.New = 1.
Proof. repeat split; discriminate. Qed.

(** TestBinaryOp_Exec *)
Example TestBinaryOp_Exec :
  let r := binary.Exec binary_test.exec_operator binary_test.TODO (repeat true 4) in
  binary.exec_err r = None /\
  (sent <$> binary.GetOutput (binary.exec_op r)) = Some [Int 10].
Proof. vm_compute. split; reflexivity. Qed.

(** ** The binary operator *)

Section BinaryLoop.

Import binary.

Variables (f : BinOperation) (ctx : Context).

(** The loop only ever writes the [state] field. *)
Lemma doOp_loop_frame items : forall o sched evs,
  run_op (doOp_loop f ctx o items sched evs)
  = with_state o (state (run_op (doOp_loop f ctx o items sched evs))).
Proof.
  induction items as [|item rest IH]; intros o [|[] sched] evs; simpl;
    try (destruct o; reflexivity).
  destruct (f ctx (state o) item) as [s|] eqn:Hf; [|destruct o; reflexivity].
  destruct s; simpl; rewrite IH; simpl; reflexivity.
Qed.

(** Reading the items [xs] one after another leaves the loop where it would
    be had it started in the folded state. *)
Lemma doOp_loop_prefix xs : forall o ys sched evs s',
  left_fold f ctx xs (state o) = Some s' ->
  exists evs',
    doOp_loop f ctx o (xs ++ ys) (repeat true (length xs) ++ sched) evs
    = doOp_loop f ctx (with_state o s') ys sched evs'.
Proof.
  induction xs as [|x xs IH]; intros o ys sched evs s' Hfold; simpl in *.
  - injection Hfold as <-. exists evs. destruct o; reflexivity.
  - destruct (f ctx (state o) x) as [s|] eqn:Hf; [|discriminate].
    assert (Hgo : forall evs1, exists evs',
      doOp_loop f ctx (with_state o s) (xs ++ ys) (repeat true (length xs) ++ sched) evs1
      = doOp_loop f ctx (with_state o s') ys sched evs').
    { intros evs1. destruct (IH (with_state o s) ys sched evs1 s' Hfold) as [evs' ->].
      exists evs'. reflexivity. }
    destruct s; apply Hgo.
Qed.

End BinaryLoop.

Section BinaryExec.

Import binary.

Lemma doOp_loop_returns f ctx xs ys o sched evs s' :
  left_fold f ctx xs (state o) = Some s' ->
  leaves ys sched ->
  exists evs',
    doOp_loop f ctx o (xs ++ ys) (repeat true (length xs) ++ sched) evs
    = mkRun Returned (with_state o s') evs'.
Proof.
  intros Hfold Hstop.
  destruct (doOp_loop_prefix f ctx xs o ys sched evs s' Hfold) as [evs' ->].
  exists evs'. destruct Hstop as [rest|rest ->]; [destruct ys|]; reflexivity.
Qed.

(** A run that leaves the loop sends the folded state on the fresh output
    channel, once, and closes it. *)
Lemma Exec_returns o ctx f xs ys sched c s' :
  op o = Some f ->
  input o = Some (xs ++ ys) ->
  output o = Some (make c) ->
  (0 < c)%nat ->
  left_fold f ctx xs (state o) = Some s' ->
  leaves ys sched ->
  let r := Exec o ctx (repeat true (length xs) ++ sched) in
  exec_err r = None /\
  exec_go r = Some Returned /\
  output (exec_op r) = Some (mkChan c [s'] true) /\
  state (exec_op r) = s'.
Proof.
  intros Hop Hin Hout Hc Hfold Hstop.
  unfold Exec; simpl. rewrite Hin.
  unfold Exec_go, doOp; simpl. rewrite Hop.
  set (o1 := with_errf (with_logf o (autoctx.GetLogFunc ctx)) (autoctx.GetErrFunc ctx)).
  destruct (doOp_loop_returns f ctx xs ys o1 sched [] s' Hfold Hstop) as [evs' ->].
  simpl. unfold Exec_deferred; simpl. rewrite Hout; simpl.
  destruct c as [|c]; [lia|]. simpl. repeat split.
Qed.

(** Without an operation [doOp] returns at once and the initial state is
    what is sent. *)
Lemma Exec_no_operation o ctx items sched c :
  op o = None ->
  input o = Some items ->
  output o = Some (make c) ->
  (0 < c)%nat ->
  let r := Exec o ctx sched in
  exec_err r = None /\
  exec_go r = Some Returned /\
  output (exec_op r) = Some (mkChan c [state o] true) /\
  state (exec_op r) = state o.
Proof.
  intros Hop Hin Hout Hc.
  unfold Exec; simpl. rewrite Hin.
  unfold Exec_go, doOp; simpl. rewrite Hop; simpl.
  unfold Exec_deferred; simpl. rewrite Hout; simpl.
  destruct c as [|c]; [lia|]. simpl. repeat split.
Qed.

(** A run that reads the whole input and finds it closed. *)
Lemma Exec_drained o ctx items rest c s' :
  input o = Some items ->
  output o = Some (make c) ->
  (0 < c)%nat ->
  final_state o ctx items = Some s' ->
  let r := Exec o ctx (repeat true (S (length items)) ++ rest) in
  exec_err r = None /\
  exec_go r = Some Returned /\
  output (exec_op r) = Some (mkChan c [s'] true) /\
  state (exec_op r) = s'.
Proof.
  intros Hin Hout Hc Hfinal. unfold final_state in Hfinal.
  destruct (op o) as [f|] eqn:Hop.
  - replace (repeat true (S (length items)) ++ rest)
      with (repeat true (length items) ++ true :: rest)
      by (change (true :: rest) with ([true] ++ rest);
          rewrite app_assoc, <- repeat_cons; reflexivity).
    apply (Exec_returns o ctx f items [] (true :: rest) c s'); auto.
    + rewrite app_nil_r; exact Hin.
    + constructor; reflexivity.
  - injection Hfinal as <-.
    apply (Exec_no_operation o ctx items _ c); auto.
Qed.

Lemma doOp_output o ctx items sched :
  output (run_op (doOp o ctx items sched)) = output o.
Proof.
  unfold doOp. destruct (op o) as [f|]; [|reflexivity].
  destruct (run_status (doOp_loop f ctx o items sched [])); simpl;
    rewrite doOp_loop_frame; reflexivity.
Qed.

(** However the goroutine comes to return, what it has sent on the fresh
    output channel is its state, once, and the channel is closed. *)
Lemma Exec_returned_emits_once o ctx items sched c :
  input o = Some items ->
  output o = Some (make c) ->
  (0 < c)%nat ->
  let r := Exec o ctx sched in
  exec_go r = Some Returned ->
  output (exec_op r) = Some (mkChan c [state (exec_op r)] true).
Proof.
  intros Hin Hout Hc. unfold Exec; simpl. rewrite Hin. simpl.
  unfold Exec_go.
  set (o1 := with_errf (with_logf o (autoctx.GetLogFunc ctx)) (autoctx.GetErrFunc ctx)).
  pose proof (doOp_output o1 ctx items sched) as Hsame.
  change (output o1) with (output o) in Hsame. rewrite Hout in Hsame.
  destruct (doOp o1 ctx items sched) as [st o2 evs]; simpl in *.
  destruct c as [|c]; [lia|].
  destruct st; unfold Exec_deferred; simpl; rewrite Hsame; simpl;
    intros Hret; (discriminate Hret || reflexivity).
Qed.

End BinaryExec.

(** C1, as stated, fails: summing 1, 2, 3 from 0 and cancelled after the
    first item, the operator sends the state 1 on its output. *)
Lemma binary_cancel_short_circuit_fails : ~ cancel_short_circuits_emission.
Proof.
  intros H.
  specialize (H (binary_test.reduce binary_test.op_add (Int 0) [Int 1; Int 2; Int 3])
                binary_test.TODO [Int 1; Int 2; Int 3] 1%nat []
                (mkChan 1024 [Int 1] true)).
  simpl in H. discriminate H; (reflexivity || discriminate || lia).
Qed.

(** C1, amended. When the context is done before the input is read to its
    end, the operator stops folding, and the deferred function of its
    goroutine still sends the state reached so far, as the one item of the
    output channel, and closes that channel. *)
Theorem binary_cancel_emits_state_so_far
    (o : binary.BinaryOperator) (ctx : Context) (f : binary.BinOperation)
    (items : in_chan) (k : nat) (rest : list bool) (c : nat) (s' : value) :
  binary.op o = Some f ->
  binary.input o = Some items ->
  binary.output o = Some (make c) ->
  (0 < c)%nat ->
  (k <= length items)%nat ->
  binary.left_fold f ctx (take k items) (binary.state o) = Some s' ->
  let r := binary.Exec o ctx (repeat true k ++ false :: rest) in
  binary.exec_go r = Some Returned /\
  binary.GetOutput (binary.exec_op r) = Some (mkChan c [s'] true).
Proof.
  intros Hop Hin Hout Hc Hk Hfold.
  assert (Hlen : length (take k items) = k) by (rewrite length_take; lia).
  replace (repeat true k) with (repeat true (length (take k items)))
    by (rewrite Hlen; reflexivity).
  destruct (Exec_returns o ctx f (take k items) (drop k items) (false :: rest) c s')
    as (_ & Hgo & Hsent & _); auto.
  - rewrite take_drop; exact Hin.
  - constructor.
Qed.

Lemma binary_cancel_emits_state_so_far_witness :
  let o := binary_test.reduce binary_test.op_add (Int 0) [Int 1; Int 2; Int 3] in
  let r := binary.Exec o binary_test.TODO (repeat true 2 ++ [false]) in
  binary.exec_go r = Some Returned /\
  binary.GetOutput (binary.exec_op r) = Some (mkChan 1024 [Int 3] true).
Proof.
  apply (binary_cancel_emits_state_so_far
           (binary_test.reduce binary_test.op_add (Int 0) [Int 1; Int 2; Int 3])
           binary_test.TODO binary_test.op_add [Int 1; Int 2; Int 3] 2 [] 1024 (Int 3)).
  - reflexivity.
  - reflexivity.
  - reflexivity.
  - lia.
  - simpl; lia.
  - reflexivity.
Defined.

(** Whatever the operation returns for an item is the state once the item is
    processed: the assignment to [o.state] comes before the type switch. *)
Lemma doOp_loop_overwrites_state
    (f : binary.BinOperation) (ctx : Context) (o : binary.BinaryOperator)
    (item s : value) (evs : list event) :
  f ctx (binary.state o) item = Some s ->
  binary.state (binary.run_op (binary.doOp_loop f ctx o [item] [true] evs)) = s.
Proof. intros Hf. simpl. rewrite Hf. destruct s; reflexivity. Qed.

(** C2. On an item for which the operation returns nil, the state after the
    item is nil and not the state before it (7 here), and nil is what the
    operator sends in the end; on an item for which the operation returns a
    StreamError, the error is reported to the error function and is the state
    after the item. *)
Theorem binary_nil_and_error_results_replace_state :
  let on_nil := binary_test.reduce binary_test.op_nil (Int 7) [Int 1] in
  let on_err := binary_test.reduce binary_test.op_error (Int 7) [Int 1] in
  let err := StreamError General "unsupported data" in
  binary.state on_nil = Int 7 /\
  binary.state (binary.exec_op (binary.Exec on_nil binary_test.logging [true])) = Nil /\
  binary.GetOutput (binary.exec_op (binary.Exec on_nil binary_test.logging [true; true]))
    = Some (mkChan 1024 [Nil] true) /\
  binary.state on_err = Int 7 /\
  binary.state (binary.exec_op (binary.Exec on_err binary_test.logging [true])) = err /\
  In (Reported (ErrFn 0) err)
     (binary.exec_events (binary.Exec on_err binary_test.logging [true])) /\
  binary.GetOutput (binary.exec_op (binary.Exec on_err binary_test.logging [true; true]))
    = Some (mkChan 1024 [err] true).
Proof. vm_compute. repeat split; auto. Qed.

(** C5. Fed the source x1, ..., xn and read to the close, a Reduce stage with
    initial state s0 and operation op sends the left fold
    op(...op(op(s0, x1), x2)..., xn) as the one value of its output; the
    source 1, 2, 3, 4, 5 with Reduce(0, +) sends 15. *)
Theorem reduce_sends_left_fold :
  (forall (g : value -> value -> value) (s0 : value) (xs : list value)
          (ctx : Context) (rest : list bool),
     let o := binary_test.reduce (fun _ op1 op2 => Some (g op1 op2)) s0 xs in
     let r := binary.Exec o ctx (repeat true (S (length xs)) ++ rest) in
     binary.exec_err r = None /\
     binary.GetOutput (binary.exec_op r) = Some (mkChan 1024 [fold_left g xs s0] true)) /\
  (let o := binary_test.reduce binary_test.op_add (Int 0)
              [Int 1; Int 2; Int 3; Int 4; Int 5] in
   let r := binary.Exec o binary_test.TODO (repeat true 6) in
   binary.exec_err r = None /\
   binary.GetOutput (binary.exec_op r) = Some (mkChan 1024 [Int 15] true)).
Proof.
  split.
  - intros g s0 xs ctx rest o r.
    assert (Hfold : forall ys s,
      binary.left_fold (fun _ op1 op2 => Some (g op1 op2)) ctx ys s
      = Some (fold_left g ys s)).
    { induction ys as [|y ys IH]; intros s; simpl; [reflexivity|apply IH]. }
    destruct (Exec_drained o ctx xs rest 1024 (fold_left g xs s0))
      as (Herr & _ & Hout & _); auto.
    + lia.
    + apply Hfold.
  - vm_compute. split; reflexivity.
Qed.

Section BinaryInvariant.

Import binary.

Lemma Exec_deferred_concurrency r :
  concurrency (run_op (Exec_deferred r)) = concurrency (run_op r).
Proof.
  unfold Exec_deferred.
  destruct (send (output (run_op r)) (state (run_op r))) as [[] out1];
    try reflexivity.
  destruct (close out1) as [[] out2]; reflexivity.
Qed.

Lemma doOp_concurrency o ctx items sched :
  concurrency (run_op (doOp o ctx items sched)) = concurrency o.
Proof.
  unfold doOp. destruct (op o) as [f|]; [|reflexivity].
  destruct (run_status (doOp_loop f ctx o items sched [])); simpl;
    rewrite doOp_loop_frame; reflexivity.
Qed.

Lemma Exec_concurrency o ctx sched :
  concurrency (exec_op (Exec o ctx sched)) = concurrency o.
Proof.
  unfold Exec; simpl. destruct (input o) as [items|]; [|reflexivity].
  simpl. unfold Exec_go.
  set (o1 := with_errf _ _).
  destruct (run_status (doOp o1 ctx items sched));
    rewrite ?Exec_deferred_concurrency, doOp_concurrency; reflexivity.
Qed.

Lemma SetConcurrency_max o concurr :
  concurrency (SetConcurrency o concurr) = Z.max 1 concurr.
Proof.
  unfold SetConcurrency; simpl.
  destruct (concurr <? 1) eqn:Hlt; simpl; lia.
Qed.

Lemma do_call_concurrency o c :
  1 <= concurrency o -> 1 <= concurrency (do_call o c).
Proof.
  intros Ho. destruct c; simpl; try assumption.
  - rewrite SetConcurrency_max; lia.
  - rewrite Exec_concurrency; assumption.
Qed.

End BinaryInvariant.

(** C9. The concurrency degree of the binary operator is at least 1 after
    every operation: New sets it to 1, SetConcurrency(c) sets it to the larger
    of 1 and c, so that zero and negative arguments give 1, and it is at least
    1 after New followed by any calls of the operator's methods. *)
Theorem binary_concurrency_at_least_one :
  binary.concurrency binary.New = 1 /\
  (forall (o : binary.BinaryOperator) (c : Z),
     binary.concurrency (binary.SetConcurrency o c) = Z.max 1 c) /\
  (forall cs : list binary.call, 1 <= binary.concurrency (binary.after_calls cs)).
Proof.
  split; [reflexivity|]. split; [apply SetConcurrency_max|].
  intros cs. unfold binary.after_calls.
  assert (H : forall o, 1 <= binary.concurrency o ->
                        1 <= binary.concurrency (fold_left binary.do_call cs o)).
  { induction cs as [|c cs IH]; intros o Ho; simpl; [assumption|].
    apply IH, do_call_concurrency, Ho. }
  apply H. simpl. lia.
Qed.

(** C8. Right after New, the output channel of the stream operator and of the
    binary operator is there (not nil), open, empty, and made with capacity
    1024. *)
Theorem new_output_capacity_1024 :
  streamop.GetOutput streamop.New = Some (make 1024) /\
  binary.GetOutput binary.New = Some (make 1024) /\
  (cap <$> streamop.GetOutput streamop.New) = Some 1024%nat /\
  (cap <$> binary.GetOutput binary.New) = Some 1024%nat.
Proof. repeat split. Qed.

(** C10. Called while no input channel is set, Exec of either operator
    returns the error "No input channel found", starts no goroutine, and
    leaves the output channel as it was: nothing sent on it, not closed. *)
Theorem exec_without_input_fails :
  (forall (MapKeys : reflect.key_order) (r : streamop.StreamOperator)
          (ctx : Context) (sched : list bool),
     streamop.input r = None ->
     let e := streamop.Exec MapKeys r ctx sched in
     streamop.exec_err e = Some (Errorf "No input channel found") /\
     streamop.exec_go e = None /\
     streamop.GetOutput (streamop.exec_op e) = streamop.GetOutput r) /\
  (forall (o : binary.BinaryOperator) (ctx : Context) (sched : list bool),
     binary.input o = None ->
     let e := binary.Exec o ctx sched in
     binary.exec_err e = Some (Errorf "No input channel found") /\
     binary.exec_go e = None /\
     binary.GetOutput (binary.exec_op e) = binary.GetOutput o /\
     binary.state (binary.exec_op e) = binary.state o) /\
  (forall (MapKeys : reflect.key_order) (ctx : Context) (sched : list bool),
     streamop.GetOutput (streamop.exec_op (streamop.Exec MapKeys streamop.New ctx sched))
     = Some (mkChan 1024 [] false)) /\
  (forall (ctx : Context) (sched : list bool),
     binary.GetOutput (binary.exec_op (binary.Exec binary.New ctx sched))
     = Some (mkChan 1024 [] false)).
Proof.
  split; [|split; [|split]].
  - intros MapKeys r ctx sched Hnil.
    unfold streamop.Exec; simpl. rewrite Hnil. repeat split.
  - intros o ctx sched Hnil.
    unfold binary.Exec; simpl. rewrite Hnil. repeat split.
  - reflexivity.
  - reflexivity.
Qed.

Lemma exec_without_input_fails_witness :
  (let e := streamop.Exec (fun _ => []) streamop.New binary_test.logging [true; false] in
   streamop.exec_err e = Some (Errorf "No input channel found") /\
   streamop.exec_go e = None /\
   streamop.GetOutput (streamop.exec_op e) = streamop.GetOutput streamop.New) /\
  (let e := binary.Exec binary.New binary_test.logging [true; false] in
   binary.exec_err e = Some (Errorf "No input channel found") /\
   binary.exec_go e = None /\
   binary.GetOutput (binary.exec_op e) = binary.GetOutput binary.New /\
   binary.state (binary.exec_op e) = binary.state binary.New).
Proof.
  destruct exec_without_input_fails as (Hs & Hb & _ & _).
  split.
  - apply (Hs (fun _ => []) streamop.New binary_test.logging [true; false]).
    reflexivity.
  - apply (Hb binary.New binary_test.logging [true; false]).
    reflexivity.
Defined.

(** ** The stream operator *)

Section StreamExpand.

Import streamop.

(** As long as the context is not done, every element is sent, in index
    order. *)
Lemma emit_elements_all js : forall (ch : chan value) (sched : list bool),
  closed ch = false ->
  emit_elements js (Some ch) (repeat true (length js) ++ sched)
  = (Next, Some (mkChan (cap ch) (sent ch ++ js) false), sched).
Proof.
  induction js as [|j js IH]; intros ch sched Hopen; simpl.
  - rewrite app_nil_r. destruct ch; simpl in *; subst; reflexivity.
  - rewrite Hopen. rewrite IH by reflexivity. simpl.
    rewrite <- app_assoc. reflexivity.
Qed.

Lemma emit_entries_all (m : gmap key value) keys :
  forall (ch : chan value) (sched : list bool),
  closed ch = false ->
  Forall (fun k => is_Some (m !! k)) keys ->
  emit_entries m keys (Some ch) (repeat true (length keys) ++ sched)
  = (Next, Some (mkChan (cap ch) (sent ch ++ (entry_tuple m <$> keys)) false), sched).
Proof.
  induction keys as [|k keys IH]; intros ch sched Hopen Hkeys; simpl.
  - rewrite app_nil_r. destruct ch; simpl in *; subst; reflexivity.
  - inversion Hkeys as [|? ? [v Hv] Hrest]; subst.
    rewrite Hv, Hopen. rewrite IH by (reflexivity || assumption). simpl.
    rewrite <- app_assoc. unfold entry_tuple at 2. rewrite Hv. reflexivity.
Qed.

Variable MapKeys : reflect.key_order.
Hypothesis MapKeys_keys : forall m : gmap key value, MapKeys m ≡ₚ (map_to_list m).*1.

Lemma MapKeys_present (m : gmap key value) :
  Forall (fun k => is_Some (m !! k)) (MapKeys m).
Proof.
  apply Forall_forall. intros k Hk.
  rewrite (MapKeys_keys m) in Hk.
  apply list_elem_of_fmap in Hk as [[k' v] [-> Hkv]].
  apply elem_of_map_to_list in Hkv. simpl. eauto.
Qed.

Lemma MapKeys_tuples (m : gmap key value) :
  entry_tuple m <$> MapKeys m ≡ₚ (fun kv => KV (key_value kv.1) kv.2) <$> map_to_list m.
Proof.
  rewrite (MapKeys_keys m). rewrite <- list_fmap_compose.
  assert (Heq : entry_tuple m ∘ fst <$> map_to_list m
                = (fun kv => KV (key_value kv.1) kv.2) <$> map_to_list m).
  { apply Forall_fmap_ext_1, Forall_forall. intros [k v] Hkv.
    apply elem_of_map_to_list in Hkv.
    unfold entry_tuple; simpl. rewrite Hkv. reflexivity. }
  rewrite Heq. reflexivity.
Qed.

(** For an item that is not nil, received while the context is not done: an
    array or a slice has each element sent in index order, a map has one
    {Key, Value} tuple sent per entry, and any other item is sent as it
    is. *)
Lemma emit_item_expands (item : value) (ch : chan value) (sched : list bool) :
  item <> Nil ->
  closed ch = false ->
  emit_item MapKeys item (Some ch) (repeat true (length (expansion MapKeys item)) ++ sched)
  = (Next, Some (mkChan (cap ch) (sent ch ++ expansion MapKeys item) false), sched).
Proof.
  intros Hnil Hopen.
  destruct item; try congruence; unfold emit_item; simpl reflect.TypeOf_Kind; cbv iota;
    try (apply (emit_elements_all [_] ch sched Hopen));
    try (apply emit_elements_all; assumption).
  simpl reflect.entries. simpl expansion. rewrite length_fmap.
  apply emit_entries_all; [assumption|apply MapKeys_present].
Qed.

Lemma expansion_of_map (m : gmap key value) :
  expansion MapKeys (Map m) ≡ₚ (fun kv => KV (key_value kv.1) kv.2) <$> map_to_list m.
Proof. apply MapKeys_tuples. Qed.

End StreamExpand.

(** C6. An item that is nil is not passed through: on receiving it the
    goroutine panics on the nil [reflect.Type], its deferred function closes
    the output, and nothing was sent. *)
Theorem stream_nil_item_panics (MapKeys : reflect.key_order) :
  let r := streamop.SetInput streamop.New (Some [Nil]) in
  let e := streamop.Exec MapKeys r binary_test.TODO [true; true; true] in
  reflect.TypeOf_Kind Nil = None /\
  streamop.exec_err e = None /\
  streamop.exec_go e = Some (Panicked "invalid memory address or nil pointer dereference") /\
  streamop.GetOutput (streamop.exec_op e) = Some (mkChan 1024 [] true).
Proof. repeat split. Qed.

(** The same source behind a slice of the same items: they are sent one by
    one and the output is closed when the input is. *)
Example stream_slice_item_expanded (MapKeys : reflect.key_order) :
  let r := streamop.SetInput streamop.New (Some [Slice [Int 1; Str "a"]; Int 2]) in
  let e := streamop.Exec MapKeys r binary_test.TODO (repeat true 6) in
  streamop.exec_go e = Some Returned /\
  streamop.GetOutput (streamop.exec_op e) = Some (mkChan 1024 [Int 1; Str "a"; Int 2] true).
Proof. repeat split. Qed.

Section StreamRun.

Import streamop.

Variable MapKeys : reflect.key_order.
Hypothesis MapKeys_keys : forall m : gmap key value, MapKeys m ≡ₚ (map_to_list m).*1.

(** Items that are not nil are expanded one after the other, in the order of
    their arrival, and the output is closed once the input is. *)
Lemma Exec_loop_expands items : forall (ch : chan value) (rest : list bool),
  Forall (fun item => item <> Nil) items ->
  closed ch = false ->
  Exec_loop MapKeys items (Some ch) (undisturbed MapKeys items ++ true :: rest)
  = (Returned, Some (mkChan (cap ch) (sent ch ++ (items ≫= expansion MapKeys)) false)).
Proof.
  induction items as [|item items IH]; intros ch rest Hitems Hopen.
  - simpl. rewrite app_nil_r. destruct ch; simpl in *; subst; reflexivity.
  - inversion Hitems as [|? ? Hitem Hrest]; subst.
    unfold undisturbed. rewrite bind_cons. fold (undisturbed MapKeys items).
    rewrite bind_cons. simpl. rewrite <- app_assoc.
    rewrite (emit_item_expands MapKeys MapKeys_keys item ch _ Hitem Hopen).
    rewrite IH by (assumption || reflexivity). simpl.
    rewrite <- app_assoc. reflexivity.
Qed.

End StreamRun.

(** ** The null collector *)

Section NullCollector.

Import collectors.





End NullCollector.

(** ** examples/batch/sum *)

(** C3, as stated, fails: the one float the sink receives is not 5.04. *)
Lemma sum_example_is_not_5_04 : ~ sink_receives_5_04.
Proof.
  intros (x & Hmain & Hnear).
  assert (Hx : Some [Float64 x] = Some [Float64 sum_example_total])
    by (rewrite <- Hmain; vm_compute; reflexivity).
  injection Hx as ->.
  vm_compute in Hnear. discriminate Hnear.
Qed.

(** C3, amended. The sink of the example receives exactly one float: the
    float64 sum, taken in order, of the nine ratio fields parsed as float32.
    It is 179180665 / 2^25 and lies within 10^-7 of 5.34, the sum of the
    ratios as decimals. *)
Theorem sum_example_total_is_5_34 :
  sum_example.main = Some [Float64 sum_example_total] /\
  sum_example.main
  = Some [stream.sum_all
            (Float64 <$> (float.to_float32 <$>
               [71 # 100; 5 # 10; 44 # 100; 63 # 100; 6 # 10;
                48 # 100; 71 # 100; 74 # 100; 53 # 100]%Q)) 0%Q] /\
  (Qabs (sum_example_total - (534 # 100)) < 1 # 10000000)%Q /\
  ((71 # 100) + (5 # 10) + (44 # 100) + (63 # 100) + (6 # 10)
   + (48 # 100) + (71 # 100) + (74 # 100) + (53 # 100) == 534 # 100)%Q.
Proof.
  split; [vm_compute; reflexivity|].
  split; [vm_compute; reflexivity|].
  split; vm_compute; reflexivity.
Qed.

(** * Further properties *)

(** ** The binary operator *)

Section BinaryFurther.

Import binary.

(** A loop that runs out of schedule after reading [xs] is blocked in the
    folded state. *)
Lemma doOp_loop_blocks f ctx xs ys o evs s' :
  left_fold f ctx xs (state o) = Some s' ->
  exists evs',
    doOp_loop f ctx o (xs ++ ys) (repeat true (length xs)) evs
    = mkRun Blocked (with_state o s') evs'.
Proof.
  intros Hfold.
  destruct (doOp_loop_prefix f ctx xs o ys [] evs s' Hfold) as [evs' Heq].
  rewrite app_nil_r in Heq. rewrite Heq.
  exists evs'. destruct ys; reflexivity.
Qed.

(** A loop whose operation panics on the item after [xs] stops there, in the
    state folded so far. *)
Lemma doOp_loop_panics f ctx xs x ys o rest evs s' :
  left_fold f ctx xs (state o) = Some s' ->
  f ctx s' x = None ->
  exists evs' msg,
    doOp_loop f ctx o (xs ++ x :: ys) (repeat true (length xs) ++ true :: rest) evs
    = mkRun (Panicked msg) (with_state o s') evs'.
Proof.
  intros Hfold Hpanic.
  destruct (doOp_loop_prefix f ctx xs o (x :: ys) (true :: rest) evs s' Hfold)
    as [evs' ->].
  exists evs'. eexists. simpl. rewrite Hpanic. reflexivity.
Qed.

Lemma Exec_blocks o ctx f xs ys s' out :
  op o = Some f ->
  input o = Some (xs ++ ys) ->
  output o = Some out ->
  left_fold f ctx xs (state o) = Some s' ->
  let r := Exec o ctx (repeat true (length xs)) in
  exec_err r = None /\
  exec_go r = Some Blocked /\
  output (exec_op r) = Some out /\
  state (exec_op r) = s'.
Proof.
  intros Hop Hin Hout Hfold.
  unfold Exec; simpl. rewrite Hin.
  unfold Exec_go, doOp; simpl. rewrite Hop.
  set (o1 := with_errf _ _).
  destruct (doOp_loop_blocks f ctx xs ys o1 [] s' Hfold) as [evs' ->].
  simpl. repeat split. exact Hout.
Qed.

End BinaryFurther.

(** A fold that goes through goes through on every prefix of the items. *)
Lemma left_fold_take f ctx items : forall (k : nat) (s s' : value),
  binary.left_fold f ctx items s = Some s' ->
  exists sk, binary.left_fold f ctx (take k items) s = Some sk.
Proof.
  induction items as [|x items IH]; intros k s s' Hfold.
  - destruct k; simpl; eauto.
  - destruct k as [|k]; simpl; [eauto|].
    simpl in Hfold. destruct (f ctx s x) as [s1|]; [|discriminate].
    apply (IH k s1 s' Hfold).
Qed.

(** C4, as stated, fails: an operator with no operation set, whose input
    holds two items none of which was received yet, has already sent its
    state 5 on the output and closed it.  The emission does not always wait
    for the input to close. *)
Lemma binary_emits_before_input_closes : ~ emits_only_after_input_closes.
Proof.
  intros H.
  destruct (H (binary.SetInput (binary.SetInitialState binary.New (Int 5))
                 (Some [Int 1; Int 2]))
              binary_test.TODO [Int 1; Int 2] [] (mkChan 1024 [Int 5] true))
    as [rest Hrest]; try reflexivity; discriminate.
Qed.

(** C4, amended. On a run of a binary operator with an operation set, on
    which the context is not done before the input closes, the operator sends
    nothing and leaves its output open as long as items are still to come and
    the input is not closed; once the input closes it emits exactly one item,
    the final accumulator state, and then closes the output channel. *)
Theorem binary_emits_final_state_after_close
    (o : binary.BinaryOperator) (ctx : Context) (f : binary.BinOperation)
    (items : in_chan) (c : nat) (s' : value) :
  binary.op o = Some f ->
  binary.input o = Some items ->
  binary.output o = Some (make c) ->
  (0 < c)%nat ->
  binary.left_fold f ctx items (binary.state o) = Some s' ->
  (forall k : nat,
     (k <= length items)%nat ->
     let r := binary.Exec o ctx (repeat true k) in
     binary.exec_go r = Some Blocked /\
     binary.GetOutput (binary.exec_op r) = Some (make c)) /\
  (forall rest : list bool,
     let r := binary.Exec o ctx (repeat true (S (length items)) ++ rest) in
     binary.exec_err r = None /\
     binary.exec_go r = Some Returned /\
     binary.GetOutput (binary.exec_op r) = Some (mkChan c [s'] true) /\
     binary.state (binary.exec_op r) = s').
Proof.
  intros Hop Hin Hout Hc Hfold. split.
  - intros k Hk.
    destruct (left_fold_take f ctx items k _ _ Hfold) as [sk Hsk].
    assert (Hlen : length (take k items) = k) by (rewrite length_take; lia).
    rewrite <- Hlen.
    destruct (Exec_blocks o ctx f (take k items) (drop k items) sk (make c))
      as (_ & Hgo & Hsame & _); auto.
    rewrite take_drop; exact Hin.
  - intros rest. apply Exec_drained; auto.
    unfold binary.final_state. rewrite Hop. exact Hfold.
Qed.

Lemma binary_emits_final_state_after_close_witness :
  let o := binary_test.exec_operator in
  (forall k : nat,
     (k <= 3)%nat ->
     let r := binary.Exec o binary_test.TODO (repeat true k) in
     binary.exec_go r = Some Blocked /\
     binary.GetOutput (binary.exec_op r) = Some (make 1024)) /\
  (forall rest : list bool,
     let r := binary.Exec o binary_test.TODO (repeat true 4 ++ rest) in
     binary.exec_err r = None /\
     binary.exec_go r = Some Returned /\
     binary.GetOutput (binary.exec_op r) = Some (mkChan 1024 [Int 10] true) /\
     binary.state (binary.exec_op r) = Int 10).
Proof.
  apply (binary_emits_final_state_after_close binary_test.exec_operator binary_test.TODO
           binary_test.op_sum_slice
           [Slice [Int 1]; Slice [Int 1; Int 2]; Slice [Int 1; Int 2; Int 3]]
           1024 (Int 10)).
  - reflexivity.
  - reflexivity.
  - reflexivity.
  - lia.
  - reflexivity.
Defined.

(** X1. However the goroutine of Exec comes to return (input closed, context
    done, or no operation set), it has sent exactly one value on the fresh
    output channel, the state it ended in, and has closed the channel. *)
Theorem binary_returned_run_emits_once
    (o : binary.BinaryOperator) (ctx : Context) (items : in_chan)
    (sched : list bool) (c : nat) :
  binary.input o = Some items ->
  binary.output o = Some (make c) ->
  (0 < c)%nat ->
  binary.exec_go (binary.Exec o ctx sched) = Some Returned ->
  binary.GetOutput (binary.exec_op (binary.Exec o ctx sched))
  = Some (mkChan c [binary.state (binary.exec_op (binary.Exec o ctx sched))] true).
Proof.
  intros Hin Hout Hc Hret.
  apply (Exec_returned_emits_once o ctx items sched c Hin Hout Hc Hret).
Qed.

Lemma binary_returned_run_emits_once_witness :
  let o := binary_test.reduce binary_test.op_add (Int 0) [Int 1; Int 2; Int 3] in
  binary.GetOutput (binary.exec_op (binary.Exec o binary_test.TODO [true; true; false]))
  = Some (mkChan 1024 [Int 3] true).
Proof.
  apply (binary_returned_run_emits_once
           (binary_test.reduce binary_test.op_add (Int 0) [Int 1; Int 2; Int 3])
           binary_test.TODO [Int 1; Int 2; Int 3] [true; true; false] 1024).
  - reflexivity.
  - reflexivity.
  - lia.
  - reflexivity.
Defined.

(** X2. While the operator is still waiting, having read some of its input
    with the input neither closed nor the context done, nothing has been sent
    on its output and the output is not closed: the state is only emitted at
    the end. *)
Theorem binary_waiting_run_emits_nothing
    (o : binary.BinaryOperator) (ctx : Context) (f : binary.BinOperation)
    (items : in_chan) (k : nat) (s' : value) (out : chan value) :
  binary.op o = Some f ->
  binary.input o = Some items ->
  binary.output o = Some out ->
  (k <= length items)%nat ->
  binary.left_fold f ctx (take k items) (binary.state o) = Some s' ->
  let r := binary.Exec o ctx (repeat true k) in
  binary.exec_err r = None /\
  binary.exec_go r = Some Blocked /\
  binary.GetOutput (binary.exec_op r) = Some out /\
  binary.state (binary.exec_op r) = s'.
Proof.
  intros Hop Hin Hout Hk Hfold.
  assert (Hlen : length (take k items) = k) by (rewrite length_take; lia).
  rewrite <- Hlen.
  apply (Exec_blocks o ctx f (take k items) (drop k items) s' out); auto.
  rewrite take_drop; exact Hin.
Qed.

Lemma binary_waiting_run_emits_nothing_witness :
  let o := binary_test.reduce binary_test.op_add (Int 0) [Int 1; Int 2; Int 3] in
  let r := binary.Exec o binary_test.TODO (repeat true 2) in
  binary.exec_err r = None /\
  binary.exec_go r = Some Blocked /\
  binary.GetOutput (binary.exec_op r) = Some (make 1024) /\
  binary.state (binary.exec_op r) = Int 3.
Proof.
  apply (binary_waiting_run_emits_nothing
           (binary_test.reduce binary_test.op_add (Int 0) [Int 1; Int 2; Int 3])
           binary_test.TODO binary_test.op_add [Int 1; Int 2; Int 3] 2 (Int 3) (make 1024)).
  - reflexivity.
  - reflexivity.
  - reflexivity.
  - simpl; lia.
  - reflexivity.
Defined.

(** X3. When the operation panics on an item, the deferred function of the
    goroutine still sends the state folded over the items before it, closes
    the output, and the goroutine ends in the panic. *)
Theorem binary_panicking_operation_still_emits
    (o : binary.BinaryOperator) (ctx : Context) (f : binary.BinOperation)
    (xs : list value) (x : value) (ys : list value) (rest : list bool)
    (c : nat) (s' : value) :
  binary.op o = Some f ->
  binary.input o = Some (xs ++ x :: ys) ->
  binary.output o = Some (make c) ->
  (0 < c)%nat ->
  binary.left_fold f ctx xs (binary.state o) = Some s' ->
  f ctx s' x = None ->
  let r := binary.Exec o ctx (repeat true (length xs) ++ true :: rest) in
  (exists msg, binary.exec_go r = Some (Panicked msg)) /\
  binary.GetOutput (binary.exec_op r) = Some (mkChan c [s'] true).
Proof.
  intros Hop Hin Hout Hc Hfold Hpanic.
  unfold binary.Exec; simpl. rewrite Hin.
  unfold binary.Exec_go, binary.doOp; simpl. rewrite Hop.
  set (o1 := binary.with_errf _ _).
  destruct (doOp_loop_panics f ctx xs x ys o1 rest [] s' Hfold Hpanic)
    as (evs' & msg & ->).
  simpl. unfold binary.Exec_deferred; simpl. rewrite Hout; simpl.
  destruct c as [|c]; [lia|]. simpl. split; [exists msg|]; reflexivity.
Qed.

Lemma binary_panicking_operation_still_emits_witness :
  let o := binary_test.reduce binary_test.op_add (Int 0) [Int 1; Int 2; Str "x"; Int 4] in
  let r := binary.Exec o binary_test.TODO (repeat true 2 ++ [true; true; true]) in
  (exists msg, binary.exec_go r = Some (Panicked msg)) /\
  binary.GetOutput (binary.exec_op r) = Some (mkChan 1024 [Int 3] true).
Proof.
  apply (binary_panicking_operation_still_emits
           (binary_test.reduce binary_test.op_add (Int 0) [Int 1; Int 2; Str "x"; Int 4])
           binary_test.TODO binary_test.op_add [Int 1; Int 2] (Str "x") [Int 4]
           [true; true] 1024 (Int 3)).
  - reflexivity.
  - reflexivity.
  - reflexivity.
  - lia.
  - reflexivity.
  - reflexivity.
Defined.

Section BinaryReports.

Import binary.

Lemma reported_app evs1 evs2 : reported (evs1 ++ evs2) = reported evs1 ++ reported evs2.
Proof. unfold reported. apply omap_app. Qed.

Lemma reported_Logfn lf msg : reported (util.Logfn lf msg) = [].
Proof. destruct lf; reflexivity. Qed.

Lemma reported_Err ef err :
  reported (autoctx.Err ef err) = match ef with Some _ => [err] | None => [] end.
Proof. destruct ef; reflexivity. Qed.

Variables (g : value -> value -> value) (ctx : Context).

(** Reading the whole input with a total operation: the state ends as the
    left fold, and the errors reported on the way are the results that are
    StreamErrors, in order. *)
Lemma doOp_loop_reports xs : forall o evs rest,
  exists E,
    doOp_loop (fun _ op1 op2 => Some (g op1 op2)) ctx o xs
      (repeat true (length xs) ++ true :: rest) evs
    = mkRun Returned (with_state o (fold_left g xs (state o))) (evs ++ E) /\
    reported E = match errf o with
                 | Some _ => List.filter is_StreamError (results g xs (state o))
                 | None => []
                 end.
Proof.
  induction xs as [|x xs IH]; intros o evs rest.
  - exists []. simpl. rewrite app_nil_r. split.
    + destruct o; reflexivity.
    + destruct (errf o); reflexivity.
  - simpl. set (s := g (state o) x).
    assert (Hplain : is_StreamError s = false -> exists E,
      doOp_loop (fun _ op1 op2 => Some (g op1 op2)) ctx (with_state o s) xs
        (repeat true (length xs) ++ true :: rest) evs
      = mkRun Returned (with_state o (fold_left g xs s)) (evs ++ E) /\
      reported E = match errf o with
                   | Some _ => List.filter is_StreamError (s :: results g xs s)
                   | None => []
                   end).
    { intros Hs. destruct (IH (with_state o s) evs rest) as (E & -> & HE).
      exists E. split; [reflexivity|]. simpl in HE. simpl. rewrite Hs. exact HE. }
    destruct s eqn:Hs; try (apply Hplain; reflexivity).
    clear Hplain. simpl.
    destruct (IH (with_state o (StreamError kind msg))
                ((evs ++ util.Logfn (logf o) (StreamError kind msg))
                 ++ autoctx.Err (errf o) (StreamError kind msg)) rest)
      as (E & -> & HE).
    exists (util.Logfn (logf o) (StreamError kind msg)
            ++ autoctx.Err (errf o) (StreamError kind msg) ++ E).
    split.
    + simpl. rewrite <- !app_assoc. reflexivity.
    + rewrite !reported_app, reported_Logfn, reported_Err, HE. simpl.
      destruct (errf o); reflexivity.
Qed.

End BinaryReports.

(** X4. Over a run that reads the whole input, the errors handed to the
    error function of the context are exactly the StreamErrors among the
    successive results of the operation, in their order; results that are nil
    or plain values are not reported, and without an error function nothing
    is. *)
Theorem binary_reports_stream_errors_in_order
    (g : value -> value -> value) (s0 : value) (xs : list value)
    (ctx : Context) (rest : list bool) :
  let o := binary_test.reduce (fun _ op1 op2 => Some (g op1 op2)) s0 xs in
  let r := binary.Exec o ctx (repeat true (S (length xs)) ++ rest) in
  reported (binary.exec_events r)
  = match ctx_errf ctx with
    | Some _ => List.filter is_StreamError (results g xs s0)
    | None => []
    end.
Proof.
  intros o r. subst r o.
  replace (repeat true (S (length xs)) ++ rest)
    with (repeat true (length xs) ++ true :: rest)
    by (change (true :: rest) with ([true] ++ rest);
        rewrite app_assoc, <- repeat_cons; reflexivity).
  unfold binary.Exec, binary_test.reduce; simpl.
  unfold binary.Exec_go, binary.doOp; simpl.
  match goal with
  | |- context [binary.doOp_loop ?f ctx ?o1 xs ?sched []] =>
      destruct (doOp_loop_reports g ctx xs o1 [] rest) as (E & -> & HE)
  end.
  simpl in *. unfold binary.Exec_deferred; simpl.
  rewrite !reported_app, !reported_Logfn, HE. simpl.
  rewrite !app_nil_r. reflexivity.
Qed.

Section BinaryEdges.

Import binary.

(** [doOp] over the whole input returns in the final state, with every other
    field as it was. *)
Lemma doOp_drained o ctx items rest s' :
  final_state o ctx items = Some s' ->
  exists evs,
    doOp o ctx items (repeat true (S (length items)) ++ rest)
    = mkRun Returned (with_state o s') evs.
Proof.
  intros Hfinal. unfold final_state in Hfinal. unfold doOp.
  destruct (op o) as [f|] eqn:Hop.
  - replace (repeat true (S (length items)) ++ rest)
      with (repeat true (length items) ++ true :: rest)
      by (change (true :: rest) with ([true] ++ rest);
          rewrite app_assoc, <- repeat_cons; reflexivity).
    destruct (doOp_loop_returns f ctx items [] o (true :: rest) [] s' Hfinal)
      as [evs Heq]; [constructor; reflexivity|].
    rewrite app_nil_r in Heq. rewrite Heq. simpl. eexists. reflexivity.
  - injection Hfinal as <-. eexists. destruct o; reflexivity.
Qed.

(** [Exec] past its check of the input. *)
Lemma Exec_with_input o ctx sched items :
  input o = Some items ->
  Exec o ctx sched
  = let o1 := with_errf (with_logf o (autoctx.GetLogFunc ctx)) (autoctx.GetErrFunc ctx) in
    let r := Exec_go o1 ctx items sched in
    mkExec None (Some (run_status r)) (run_op r)
      (util.Logfn (logf o1) (Str "Binary operator starting") ++ run_events r).
Proof. intros Hin. unfold Exec; simpl. rewrite Hin. reflexivity. Qed.

Lemma Exec_output_cap o ctx sched ch :
  output o = Some ch ->
  exists ch', output (exec_op (Exec o ctx sched)) = Some ch' /\ cap ch' = cap ch.
Proof.
  intros Hout. unfold Exec; simpl.
  destruct (input o) as [items|]; simpl; [|exists ch; auto].
  unfold Exec_go.
  set (o1 := with_errf (with_logf o (autoctx.GetLogFunc ctx)) (autoctx.GetErrFunc ctx)).
  pose proof (doOp_output o1 ctx items sched) as Hsame.
  change (output o1) with (output o) in Hsame. rewrite Hout in Hsame.
  destruct (doOp o1 ctx items sched) as [st o2 evs]; simpl in *.
  assert (Hdef : exists ch', output (run_op (Exec_deferred (mkRun st o2 evs))) = Some ch'
                             /\ cap ch' = cap ch).
  { unfold Exec_deferred; simpl. rewrite Hsame. unfold send.
    destruct (closed ch) eqn:Hclosed; simpl; [exists ch; auto|].
    destruct (length (sent ch) <? cap ch)%nat; simpl; eexists; split; reflexivity. }
  destruct st; simpl; auto. exists ch; auto.
Qed.

Lemma setter_output o c :
  is_setter c = true -> output (do_call o c) = output o.
Proof.
  destruct c; simpl; try reflexivity; try discriminate.
  intros _. unfold SetConcurrency; simpl.
  destruct (concurr <? 1); reflexivity.
Qed.

End BinaryEdges.

(** X5. An operator can be executed once: on an operator whose output channel
    is already closed, as a completed Exec leaves it, the goroutine of Exec
    reads its input and then panics in the deferred send on the closed
    channel, and nothing more is sent. *)
Theorem binary_exec_on_closed_output_panics
    (o : binary.BinaryOperator) (ctx : Context) (items : in_chan)
    (rest : list bool) (ch : chan value) (s' : value) :
  binary.input o = Some items ->
  binary.output o = Some ch ->
  closed ch = true ->
  binary.final_state o ctx items = Some s' ->
  let r := binary.Exec o ctx (repeat true (S (length items)) ++ rest) in
  binary.exec_err r = None /\
  binary.exec_go r = Some (Panicked "send on closed channel") /\
  binary.GetOutput (binary.exec_op r) = Some ch.
Proof.
  intros Hin Hout Hclosed Hfinal.
  rewrite (Exec_with_input o ctx _ items Hin). cbv zeta. unfold binary.Exec_go.
  set (o1 := binary.with_errf _ _).
  destruct (doOp_drained o1 ctx items rest s' Hfinal) as [evs ->].
  simpl. unfold binary.Exec_deferred; simpl. rewrite Hout; simpl.
  rewrite Hclosed. simpl. repeat split.
Qed.

Lemma binary_exec_on_closed_output_panics_witness :
  let first := binary.Exec binary_test.exec_operator binary_test.TODO (repeat true 4) in
  let again := binary.SetInput (binary.exec_op first) (Some []) in
  let r := binary.Exec again binary_test.TODO (repeat true 1 ++ []) in
  binary.exec_err r = None /\
  binary.exec_go r = Some (Panicked "send on closed channel") /\
  binary.GetOutput (binary.exec_op r) = Some (mkChan 1024 [Int 10] true).
Proof.
  apply (binary_exec_on_closed_output_panics
           (binary.SetInput
              (binary.exec_op
                 (binary.Exec binary_test.exec_operator binary_test.TODO (repeat true 4)))
              (Some []))
           binary_test.TODO [] [] (mkChan 1024 [Int 10] true) (Int 10)).
  - reflexivity.
  - reflexivity.
  - reflexivity.
  - reflexivity.
Defined.

(** X6. An operator that was not built by New has a nil output channel: with
    an operation set, the goroutine of Exec folds the whole input and then
    blocks for ever in the deferred send, so that nothing is sent and no
    channel is closed. *)
Theorem binary_exec_on_nil_output_blocks
    (o : binary.BinaryOperator) (ctx : Context) (f : binary.BinOperation)
    (items : in_chan) (rest : list bool) (s' : value) :
  binary.op o = Some f ->
  binary.input o = Some items ->
  binary.output o = None ->
  binary.left_fold f ctx items (binary.state o) = Some s' ->
  let r := binary.Exec o ctx (repeat true (S (length items)) ++ rest) in
  binary.exec_err r = None /\
  binary.exec_go r = Some Blocked /\
  binary.GetOutput (binary.exec_op r) = None /\
  binary.state (binary.exec_op r) = s'.
Proof.
  intros Hop Hin Hout Hfold.
  assert (Hfinal : binary.final_state o ctx items = Some s')
    by (unfold binary.final_state; rewrite Hop; exact Hfold).
  rewrite (Exec_with_input o ctx _ items Hin). cbv zeta. unfold binary.Exec_go.
  set (o1 := binary.with_errf _ _).
  destruct (doOp_drained o1 ctx items rest s' Hfinal) as [evs ->].
  simpl. unfold binary.Exec_deferred; simpl. rewrite Hout; simpl.
  repeat split.
Qed.

Lemma binary_exec_on_nil_output_blocks_witness :
  let o := binary.SetInput
             (binary.SetOperation (binary.SetInitialState binary.zero (Int 5))
                (Some binary_test.op_add))
             (Some [Int 1]) in
  let r := binary.Exec o binary_test.TODO (repeat true 2 ++ []) in
  binary.exec_err r = None /\
  binary.exec_go r = Some Blocked /\
  binary.GetOutput (binary.exec_op r) = None /\
  binary.state (binary.exec_op r) = Int 6.
Proof.
  apply (binary_exec_on_nil_output_blocks
           (binary.SetInput
              (binary.SetOperation (binary.SetInitialState binary.zero (Int 5))
                 (Some binary_test.op_add))
              (Some [Int 1]))
           binary_test.TODO binary_test.op_add [Int 1] [] (Int 6)).
  - reflexivity.
  - reflexivity.
  - reflexivity.
  - reflexivity.
Defined.

(** X7. After New and any calls of the operator's methods, Exec included,
    the output channel is never nil and keeps the capacity 1024; as long as
    only setters were called it is the very channel New made, with nothing
    sent on it and not closed. *)
Theorem binary_output_channel_kept :
  (forall cs : list binary.call,
     exists ch : chan value,
       binary.GetOutput (binary.after_calls cs) = Some ch /\ cap ch = 1024%nat) /\
  (forall cs : list binary.call,
     forallb is_setter cs = true ->
     binary.GetOutput (binary.after_calls cs) = Some (make 1024)).
Proof.
  split.
  - intros cs. unfold binary.after_calls, binary.GetOutput.
    assert (H : forall o ch, binary.output o = Some ch ->
              exists ch', binary.output (fold_left binary.do_call cs o) = Some ch'
                          /\ cap ch' = cap ch).
    { induction cs as [|c cs IH]; intros o ch Ho; simpl; [exists ch; auto|].
      assert (Hc : exists ch1, binary.output (binary.do_call o c) = Some ch1
                               /\ cap ch1 = cap ch).
      { destruct c; simpl; try (exists ch; auto; fail).
        - exists ch. split; [|reflexivity].
          unfold binary.SetConcurrency; simpl.
          destruct (concurr <? 1); exact Ho.
        - apply Exec_output_cap, Ho. }
      destruct Hc as (ch1 & Hch1 & Hcap1).
      destruct (IH _ _ Hch1) as (ch' & Hch' & Hcap').
      exists ch'. split; [exact Hch'|congruence]. }
    apply (H binary.New (make 1024)). reflexivity.
  - intros cs. unfold binary.after_calls, binary.GetOutput.
    assert (H : forall o, forallb is_setter cs = true ->
              binary.output (fold_left binary.do_call cs o) = binary.output o).
    { induction cs as [|c cs IH]; intros o Hcs; simpl; [reflexivity|].
      simpl in Hcs. apply andb_prop in Hcs as [Hc Hcs].
      rewrite IH by exact Hcs. apply setter_output, Hc. }
    intros Hcs. rewrite H by exact Hcs. reflexivity.
Qed.

Lemma binary_output_channel_kept_witness :
  binary.GetOutput
    (binary.after_calls
       [binary.CallSetConcurrency 4; binary.CallSetInitialState (Int 0);
        binary.CallSetInput (Some [])])
  = Some (make 1024).
Proof.
  destruct binary_output_channel_kept as [_ Hsetters].
  apply (Hsetters [binary.CallSetConcurrency 4; binary.CallSetInitialState (Int 0);
                   binary.CallSetInput (Some [])]).
  reflexivity.
Defined.

(** ** The stream operator *)

Section StreamFurther.

Import streamop.

Lemma stream_Exec_with_input MapKeys r ctx sched items :
  input r = Some items ->
  Exec MapKeys r ctx sched
  = let r1 := with_logf r (autoctx.GetLogFunc ctx) in
    let g := Exec_go MapKeys r1 items sched in
    mkExec None (Some (run_status g)) (run_op g)
      (util.Logfn (logf r1) (Str "Stream operator starting") ++ run_events g).
Proof. intros Hin. unfold Exec; simpl. rewrite Hin. reflexivity. Qed.

(** The shape of the output after the elements loop, whatever the
    schedule. *)
Lemma emit_elements_prefix js : forall (ch : chan value) sched fl out sched',
  closed ch = false ->
  emit_elements js (Some ch) sched = (fl, out, sched') ->
  exists pre,
    out = Some (mkChan (cap ch) (sent ch ++ pre) false) /\
    pre `prefix_of` js /\
    (fl = Next -> pre = js) /\
    (fl = Next \/ fl = Leave Returned \/ fl = Leave Blocked).
Proof.
  induction js as [|j js IH]; intros ch sched fl out sched' Hopen Hrun; simpl in Hrun.
  - injection Hrun as <- <- <-. exists []. rewrite app_nil_r.
    destruct ch; simpl in *; subst. repeat split; auto. 
  - destruct sched as [|[] sched1].
    + injection Hrun as <- <- <-. exists []. rewrite app_nil_r.
      destruct ch; simpl in *; subst.
      repeat split; auto using prefix_nil. discriminate.
    + rewrite Hopen in Hrun.
      apply IH in Hrun as (pre & -> & Hpre & Hall & Hfl); [|reflexivity].
      exists (j :: pre). simpl. rewrite <- app_assoc. simpl.
      repeat split; auto using prefix_cons.
      intros Hnext. rewrite (Hall Hnext). reflexivity.
    + injection Hrun as <- <- <-. exists []. rewrite app_nil_r.
      destruct ch; simpl in *; subst.
      repeat split; auto using prefix_nil. discriminate.
Qed.

Lemma emit_entries_prefix (m : gmap key value) keys :
  forall (ch : chan value) sched fl out sched',
  closed ch = false ->
  Forall (fun k => is_Some (m !! k)) keys ->
  emit_entries m keys (Some ch) sched = (fl, out, sched') ->
  exists pre,
    out = Some (mkChan (cap ch) (sent ch ++ pre) false) /\
    pre `prefix_of` (entry_tuple m <$> keys) /\
    (fl = Next -> pre = entry_tuple m <$> keys) /\
    (fl = Next \/ fl = Leave Returned \/ fl = Leave Blocked).
Proof.
  induction keys as [|k keys IH]; intros ch sched fl out sched' Hopen Hkeys Hrun;
    simpl in Hrun.
  - injection Hrun as <- <- <-. exists []. rewrite app_nil_r.
    destruct ch; simpl in *; subst. repeat split; auto.
  - inversion Hkeys as [|? ? [v Hv] Hrest]; subst. rewrite Hv in Hrun.
    destruct sched as [|[] sched1].
    + injection Hrun as <- <- <-. exists []. rewrite app_nil_r.
      destruct ch; simpl in *; subst.
      repeat split; auto using prefix_nil. discriminate.
    + rewrite Hopen in Hrun.
      apply IH in Hrun as (pre & -> & Hpre & Hall & Hfl); [|reflexivity|assumption].
      assert (Htuple : entry_tuple m k = KV (key_value k) v)
        by (unfold entry_tuple; rewrite Hv; reflexivity).
      exists (entry_tuple m k :: pre). simpl. rewrite <- app_assoc, Htuple. simpl.
      split; [reflexivity|]. split; [apply prefix_cons, Hpre|].
      split; [|exact Hfl].
      intros Hnext. rewrite (Hall Hnext). reflexivity.
    + injection Hrun as <- <- <-. exists []. rewrite app_nil_r.
      destruct ch; simpl in *; subst.
      repeat split; auto using prefix_nil. discriminate.
Qed.

Variable MapKeys : reflect.key_order.
Hypothesis MapKeys_keys : forall m : gmap key value, MapKeys m ≡ₚ (map_to_list m).*1.

Lemma emit_item_prefix item (ch : chan value) sched fl out sched' :
  item <> Nil ->
  closed ch = false ->
  emit_item MapKeys item (Some ch) sched = (fl, out, sched') ->
  exists pre,
    out = Some (mkChan (cap ch) (sent ch ++ pre) false) /\
    pre `prefix_of` expansion MapKeys item /\
    (fl = Next -> pre = expansion MapKeys item) /\
    (fl = Next \/ fl = Leave Returned \/ fl = Leave Blocked).
Proof.
  intros Hnil Hopen.
  destruct item; try congruence; unfold emit_item; simpl reflect.TypeOf_Kind; cbv iota;
    simpl reflect.elements; simpl reflect.entries; simpl expansion;
    try (apply emit_elements_prefix; assumption).
  apply emit_entries_prefix; [assumption|].
  apply MapKeys_present, MapKeys_keys.
Qed.

(** Whatever the schedule, what the loop has sent is a prefix of the
    expansions of the items, in order, and the loop does not panic. *)
Lemma Exec_loop_prefix items : forall (ch : chan value) sched st out,
  Forall (fun item => item <> Nil) items ->
  closed ch = false ->
  Exec_loop MapKeys items (Some ch) sched = (st, out) ->
  exists pre,
    out = Some (mkChan (cap ch) (sent ch ++ pre) false) /\
    pre `prefix_of` (items ≫= expansion MapKeys) /\
    (st = Returned \/ st = Blocked).
Proof.
  induction items as [|item items IH]; intros ch sched st out Hitems Hopen Hrun.
  - exists []. rewrite app_nil_r.
    destruct sched as [|[] sched1]; simpl in Hrun; injection Hrun as <- <-;
      destruct ch; simpl in *; subst; repeat split; auto.
  - inversion Hitems as [|? ? Hitem Hrest]; subst.
    destruct sched as [|[] sched1]; simpl in Hrun.
    + injection Hrun as <- <-. exists []. rewrite app_nil_r.
      destruct ch; simpl in *; subst. repeat split; auto using prefix_nil.
    + destruct (emit_item MapKeys item (Some ch) sched1) as [[fl out1] sched2] eqn:Hemit.
      apply emit_item_prefix in Hemit as (pre1 & -> & Hpre1 & Hall & Hfl); auto.
      rewrite bind_cons.
      destruct fl as [|st1].
      * apply IH in Hrun as (pre2 & -> & Hpre2 & Hst); [|assumption|reflexivity].
        exists (pre1 ++ pre2). simpl. rewrite <- app_assoc.
        repeat split; auto.
        rewrite (Hall eq_refl). apply prefix_app, Hpre2.
      * injection Hrun as <- <-. exists pre1.
        repeat split; auto using prefix_app_r.
        destruct Hfl as [Hfl|[Hfl|Hfl]]; try discriminate; injection Hfl as ->; auto.
    + injection Hrun as <- <-. exists []. rewrite app_nil_r.
      destruct ch; simpl in *; subst. repeat split; auto using prefix_nil.
Qed.

End StreamFurther.

Section StreamShape.

Import streamop.

Lemma emit_entries_grows (m : gmap key value) keys :
  forall (ch : chan value) sched fl out sched',
  closed ch = false ->
  emit_entries m keys (Some ch) sched = (fl, out, sched') ->
  exists pre, out = Some (mkChan (cap ch) (sent ch ++ pre) false).
Proof.
  induction keys as [|k keys IH]; intros ch sched fl out sched' Hopen Hrun;
    simpl in Hrun.
  - injection Hrun as <- <- <-. exists []. rewrite app_nil_r.
    destruct ch; simpl in *; subst; reflexivity.
  - assert (Hsame : exists pre, Some ch = Some (mkChan (cap ch) (sent ch ++ pre) false)).
    { exists []. rewrite app_nil_r. destruct ch; simpl in *; subst; reflexivity. }
    destruct (m !! k) as [v|]; [|injection Hrun as <- <- <-; exact Hsame].
    destruct sched as [|[] sched1]; try (injection Hrun as <- <- <-; exact Hsame).
    rewrite Hopen in Hrun.
    apply IH in Hrun as (pre & ->); [|reflexivity].
    exists (KV (key_value k) v :: pre). simpl. rewrite <- app_assoc. reflexivity.
Qed.

Variable MapKeys : reflect.key_order.

Lemma emit_item_grows item (ch : chan value) sched fl out sched' :
  closed ch = false ->
  emit_item MapKeys item (Some ch) sched = (fl, out, sched') ->
  exists pre, out = Some (mkChan (cap ch) (sent ch ++ pre) false).
Proof.
  intros Hopen Hrun.
  assert (Helems : forall js, emit_elements js (Some ch) sched = (fl, out, sched') ->
            exists pre, out = Some (mkChan (cap ch) (sent ch ++ pre) false)).
  { intros js Hjs.
    apply emit_elements_prefix in Hjs as (pre & -> & _); [|assumption].
    exists pre; reflexivity. }
  destruct item; unfold emit_item in Hrun; simpl reflect.TypeOf_Kind in Hrun;
    cbv iota in Hrun; try (apply Helems in Hrun; exact Hrun).
  - injection Hrun as <- <- <-. exists []. rewrite app_nil_r.
    destruct ch; simpl in *; subst; reflexivity.
  - apply emit_entries_grows in Hrun; assumption.
Qed.

(** The loop only ever appends to what was sent; it neither closes the
    output nor changes its capacity. *)
Lemma Exec_loop_grows items : forall (ch : chan value) sched st out,
  closed ch = false ->
  Exec_loop MapKeys items (Some ch) sched = (st, out) ->
  exists pre, out = Some (mkChan (cap ch) (sent ch ++ pre) false).
Proof.
  induction items as [|item items IH]; intros ch sched st out Hopen Hrun.
  - exists []. rewrite app_nil_r.
    destruct sched as [|[] sched1]; simpl in Hrun; injection Hrun as <- <-;
      destruct ch; simpl in *; subst; reflexivity.
  - assert (Hsame : exists pre, Some ch = Some (mkChan (cap ch) (sent ch ++ pre) false)).
    { exists []. rewrite app_nil_r. destruct ch; simpl in *; subst; reflexivity. }
    destruct sched as [|[] sched1]; simpl in Hrun;
      try (injection Hrun as <- <-; exact Hsame).
    destruct (emit_item MapKeys item (Some ch) sched1) as [[fl out1] sched2] eqn:Hemit.
    apply emit_item_grows in Hemit as (pre1 & ->); [|assumption].
    destruct fl as [|st1].
    + apply IH in Hrun as (pre2 & ->); [|reflexivity].
      exists (pre1 ++ pre2). simpl. rewrite <- app_assoc. reflexivity.
    + injection Hrun as <- <-. exists pre1. reflexivity.
Qed.

End StreamShape.

(** A run of [Exec] over items that are not nil, on an undisturbed
    schedule. *)
Lemma stream_Exec_expands
    (MapKeys : reflect.key_order) (r : streamop.StreamOperator) (ctx : Context)
    (items : in_chan) (ch : chan value) (rest : list bool) :
  (forall m : gmap key value, MapKeys m ≡ₚ (map_to_list m).*1) ->
  streamop.input r = Some items ->
  streamop.output r = Some ch ->
  closed ch = false ->
  Forall (fun item => item <> Nil) items ->
  let e := streamop.Exec MapKeys r ctx (undisturbed MapKeys items ++ true :: rest) in
  streamop.exec_err e = None /\
  streamop.exec_go e = Some Returned /\
  streamop.output (streamop.exec_op e)
  = Some (mkChan (cap ch) (sent ch ++ (items ≫= expansion MapKeys)) true).
Proof.
  intros Hkeys Hin Hout Hopen Hitems.
  rewrite (stream_Exec_with_input MapKeys r ctx _ items Hin). cbv zeta.
  unfold streamop.Exec_go. simpl streamop.output. rewrite Hout.
  rewrite (Exec_loop_expands MapKeys Hkeys items ch rest Hitems Hopen).
  simpl. repeat split.
Qed.

Section StreamAnyOrder.

Import streamop.

Variables MK1 MK2 : reflect.key_order.

(** Items that are not maps are handled the same whatever [MapKeys] does. *)
Lemma expansion_any_order item :
  indexed_or_scalar item -> expansion MK1 item = expansion MK2 item.
Proof. destruct item; simpl; intros H; (reflexivity || destruct H). Qed.

Lemma emit_item_any_order item out sched :
  indexed_or_scalar item ->
  emit_item MK1 item out sched = emit_item MK2 item out sched.
Proof. destruct item; simpl; intros H; (reflexivity || destruct H). Qed.

Lemma Exec_loop_any_order items : forall out sched,
  Forall indexed_or_scalar items ->
  Exec_loop MK1 items out sched = Exec_loop MK2 items out sched.
Proof.
  induction items as [|item items IH]; intros out sched Hitems.
  - destruct sched as [|[] sched1]; reflexivity.
  - inversion Hitems as [|? ? Hitem Hrest]; subst.
    destruct sched as [|[] sched1]; simpl; try reflexivity.
    rewrite (emit_item_any_order item out sched1 Hitem).
    destruct (emit_item MK2 item out sched1) as [[[|st] out1] sched2]; auto.
Qed.

Lemma bind_expansion_any_order items :
  Forall indexed_or_scalar items ->
  items ≫= expansion MK1 = items ≫= expansion MK2.
Proof.
  induction 1 as [|item items Hitem _ IH]; [reflexivity|].
  rewrite !bind_cons, IH, (expansion_any_order item Hitem). reflexivity.
Qed.

Lemma undisturbed_any_order items :
  Forall indexed_or_scalar items ->
  undisturbed MK1 items = undisturbed MK2 items.
Proof.
  unfold undisturbed.
  induction 1 as [|item items Hitem _ IH]; [reflexivity|].
  rewrite !bind_cons, IH, (expansion_any_order item Hitem). reflexivity.
Qed.

Lemma Exec_any_order r ctx sched items :
  input r = Some items ->
  Forall indexed_or_scalar items ->
  Exec MK1 r ctx sched = Exec MK2 r ctx sched.
Proof.
  intros Hin Hitems.
  rewrite (stream_Exec_with_input MK1 r ctx sched items Hin).
  rewrite (stream_Exec_with_input MK2 r ctx sched items Hin).
  cbv zeta. unfold Exec_go. simpl output.
  rewrite (Exec_loop_any_order items _ sched Hitems). reflexivity.
Qed.

End StreamAnyOrder.

Lemma indexed_or_scalar_not_nil items :
  Forall indexed_or_scalar items -> Forall (fun item => item <> Nil) items.
Proof.
  intros Hitems. apply (Forall_impl _ _ _ Hitems).
  intros item Hitem ->. exact Hitem.
Qed.

(** A run of [Exec] over items that are not maps, on an undisturbed
    schedule, whatever [MapKeys] does. *)
Lemma stream_Exec_expands_sequences
    (MapKeys : reflect.key_order) (r : streamop.StreamOperator) (ctx : Context)
    (items : in_chan) (ch : chan value) (rest : list bool) :
  streamop.input r = Some items ->
  streamop.output r = Some ch ->
  closed ch = false ->
  Forall indexed_or_scalar items ->
  let e := streamop.Exec MapKeys r ctx (undisturbed MapKeys items ++ true :: rest) in
  streamop.exec_err e = None /\
  streamop.exec_go e = Some Returned /\
  streamop.output (streamop.exec_op e)
  = Some (mkChan (cap ch) (sent ch ++ (items ≫= expansion MapKeys)) true).
Proof.
  intros Hin Hout Hopen Hitems.
  rewrite (Exec_any_order MapKeys keys_in_order r ctx _ items Hin Hitems).
  rewrite (undisturbed_any_order MapKeys keys_in_order items Hitems).
  rewrite (bind_expansion_any_order MapKeys keys_in_order items Hitems).
  apply stream_Exec_expands; auto using indexed_or_scalar_not_nil.
Qed.

(** X8. Fed ints, floats, strings, stream errors, arrays and slices, with the
    context not done while they are received and sent on, the stream operator
    sends the elements of each array or slice in index order and every other
    such item as it is, item after item in the order of arrival, and closes
    its output once the input is closed. *)
Theorem stream_expands_items_in_order
    (MapKeys : reflect.key_order) (r : streamop.StreamOperator) (ctx : Context)
    (items : in_chan) (ch : chan value) (rest : list bool) :
  streamop.input r = Some items ->
  streamop.output r = Some ch ->
  closed ch = false ->
  Forall indexed_or_scalar items ->
  let e := streamop.Exec MapKeys r ctx (undisturbed MapKeys items ++ true :: rest) in
  streamop.exec_err e = None /\
  streamop.exec_go e = Some Returned /\
  streamop.GetOutput (streamop.exec_op e)
  = Some (mkChan (cap ch) (sent ch ++ (items ≫= expansion MapKeys)) true).
Proof.
  intros Hin Hout Hopen Hitems.
  apply stream_Exec_expands_sequences; assumption.
Qed.

Lemma stream_expands_items_in_order_witness :
  let r := streamop.SetInput streamop.New
             (Some [Slice [Int 1; Int 2]; Str "a"; Array [Slice [Int 3]]]) in
  let e := streamop.Exec keys_in_order r binary_test.TODO (repeat true 8) in
  streamop.exec_err e = None /\
  streamop.exec_go e = Some Returned /\
  streamop.GetOutput (streamop.exec_op e)
  = Some (mkChan 1024 [Int 1; Int 2; Str "a"; Slice [Int 3]] true).
Proof.
  apply (stream_expands_items_in_order keys_in_order
           (streamop.SetInput streamop.New
              (Some [Slice [Int 1; Int 2]; Str "a"; Array [Slice [Int 3]]]))
           binary_test.TODO
           [Slice [Int 1; Int 2]; Str "a"; Array [Slice [Int 3]]] (make 1024) []).
  - reflexivity.
  - reflexivity.
  - reflexivity.
  - repeat constructor.
Defined.

(** X9. For an item that is a map keyed by ints or strings, every key of
    which [MapKeys] lists once (so a map without keys that no lookup finds),
    received while the context is not done, the operator sends as many tuples
    as the map has entries, and the tuples sent are, in some order, exactly
    the {Key, Value} pairs of the entries: none is missing, none is sent
    twice. *)
Theorem stream_map_item_sends_each_entry_once
    (MapKeys : reflect.key_order) (m : gmap key value) (ch : chan value)
    (sched : list bool) :
  (forall m : gmap key value, MapKeys m ≡ₚ (map_to_list m).*1) ->
  closed ch = false ->
  exists tuples : list value,
    streamop.emit_item MapKeys (Map m) (Some ch) (repeat true (size m) ++ sched)
    = (streamop.Next, Some (mkChan (cap ch) (sent ch ++ tuples) false), sched) /\
    tuples ≡ₚ (fun kv => KV (key_value kv.1) kv.2) <$> map_to_list m.
Proof.
  intros Hkeys Hopen. exists (expansion MapKeys (Map m)). split.
  - assert (Hsize : length (expansion MapKeys (Map m)) = size m).
    { simpl. rewrite length_fmap, (Hkeys m), length_fmap.
      apply length_map_to_list. }
    rewrite <- Hsize.
    apply (emit_item_expands MapKeys Hkeys); [discriminate|assumption].
  - apply expansion_of_map, Hkeys.
Qed.

Lemma stream_map_item_sends_each_entry_once_witness :
  let m : gmap key value := {[KStr "a" := Int 1; KInt 2 := Str "b"]} in
  exists tuples : list value,
    streamop.emit_item keys_in_order (Map m) (Some (make 1024))
      (repeat true (size m) ++ [false])
    = (streamop.Next, Some (mkChan 1024 ([] ++ tuples) false), [false]) /\
    tuples ≡ₚ (fun kv => KV (key_value kv.1) kv.2) <$> map_to_list m.
Proof.
  apply (stream_map_item_sends_each_entry_once keys_in_order
           {[KStr "a" := Int 1; KInt 2 := Str "b"]} (make 1024) [false]).
  - intros m. reflexivity.
  - reflexivity.
Defined.

(** The run of the witness above, in the order the keys are stored in. *)
Example stream_map_item_two_entries :
  let m : gmap key value := {[KStr "a" := Int 1; KInt 2 := Str "b"]} in
  let r := streamop.SetInput streamop.New (Some [Map m]) in
  let e := streamop.Exec keys_in_order r binary_test.TODO (repeat true 4) in
  streamop.exec_go e = Some Returned /\
  exists tuples,
    streamop.GetOutput (streamop.exec_op e) = Some (mkChan 1024 tuples true) /\
    tuples ≡ₚ [KV (Str "a") (Int 1); KV (Int 2) (Str "b")].
Proof.
  vm_compute. split; [reflexivity|]. eexists. split; [reflexivity|].
  first [reflexivity | apply Permutation_swap].
Qed.

(** A map with a key that no lookup finds, as a NaN key is: [MapKeys] lists
    the key, [MapIndex] gives the zero Value for it, and the goroutine panics
    on [Interface()] before anything is sent for that key; its deferred
    function closes the output. *)
Example stream_map_item_with_lost_key_panics :
  let listed : reflect.key_order := fun _ => [KInt 1; KStr "NaN"] in
  let r := streamop.SetInput streamop.New (Some [Map {[KInt 1 := Str "one"]}]) in
  let e := streamop.Exec listed r binary_test.TODO (repeat true 4) in
  streamop.exec_go e
  = Some (Panicked "reflect: call of reflect.Value.Interface on zero Value") /\
  streamop.GetOutput (streamop.exec_op e)
  = Some (mkChan 1024 [KV (Int 1) (Str "one")] true).
Proof. vm_compute. split; reflexivity. Qed.

(** X10. Whatever the schedule, so also when the context is done in the
    middle of an item, what the stream operator has sent for ints, floats,
    strings, stream errors, arrays and slices is a prefix of the full
    expansion of its input: cancellation cuts the output short, and never
    reorders, repeats or invents a value; nor does the goroutine panic. *)
Theorem stream_output_is_prefix_of_expansion
    (MapKeys : reflect.key_order) (r : streamop.StreamOperator) (ctx : Context)
    (items : in_chan) (ch : chan value) (sched : list bool) :
  streamop.input r = Some items ->
  streamop.output r = Some ch ->
  closed ch = false ->
  Forall indexed_or_scalar items ->
  let e := streamop.Exec MapKeys r ctx sched in
  exists (pre : list value) (b : bool),
    streamop.GetOutput (streamop.exec_op e) = Some (mkChan (cap ch) (sent ch ++ pre) b) /\
    pre `prefix_of` (items ≫= expansion MapKeys) /\
    (streamop.exec_go e = Some Returned \/ streamop.exec_go e = Some Blocked).
Proof.
  intros Hin Hout Hopen Hitems.
  rewrite (Exec_any_order MapKeys keys_in_order r ctx _ items Hin Hitems).
  rewrite (bind_expansion_any_order MapKeys keys_in_order items Hitems).
  rewrite (stream_Exec_with_input keys_in_order r ctx _ items Hin). cbv zeta.
  unfold streamop.Exec_go. simpl streamop.output. rewrite Hout.
  destruct (streamop.Exec_loop keys_in_order items (Some ch) sched) as [st out] eqn:Hloop.
  apply (Exec_loop_prefix keys_in_order) in Hloop as (pre & -> & Hpre & Hst);
    auto using indexed_or_scalar_not_nil.
  exists pre.
  destruct Hst as [-> | ->]; simpl; eexists; repeat split; auto.
Qed.

Lemma stream_output_is_prefix_of_expansion_witness :
  let r := streamop.SetInput streamop.New (Some [Slice [Int 1; Int 2; Int 3]; Str "a"]) in
  let e := streamop.Exec keys_in_order r binary_test.TODO [true; true; false] in
  exists (pre : list value) (b : bool),
    streamop.GetOutput (streamop.exec_op e) = Some (mkChan 1024 ([] ++ pre) b) /\
    pre `prefix_of` ([Slice [Int 1; Int 2; Int 3]; Str "a"] ≫= expansion keys_in_order) /\
    (streamop.exec_go e = Some Returned \/ streamop.exec_go e = Some Blocked).
Proof.
  apply (stream_output_is_prefix_of_expansion keys_in_order
           (streamop.SetInput streamop.New (Some [Slice [Int 1; Int 2; Int 3]; Str "a"]))
           binary_test.TODO [Slice [Int 1; Int 2; Int 3]; Str "a"] (make 1024)
           [true; true; false]).
  - reflexivity.
  - reflexivity.
  - reflexivity.
  - repeat constructor.
Defined.

(** The run of the witness above: cancelled after the first element of the
    slice, the operator has sent that element alone and closed its output. *)
Example stream_cancelled_mid_item :
  let r := streamop.SetInput streamop.New (Some [Slice [Int 1; Int 2; Int 3]; Str "a"]) in
  let e := streamop.Exec keys_in_order r binary_test.TODO [true; true; false] in
  streamop.GetOutput (streamop.exec_op e) = Some (mkChan 1024 [Int 1] true).
Proof. reflexivity. Qed.

(** X11. Whatever the items, nil included, and whatever the schedule, the
    stream operator only appends to what was sent on its output, keeps the
    capacity of the channel, and closes it exactly when its goroutine has
    ended, by return or by panic; while the goroutine is blocked the output
    stays open. *)
Theorem stream_output_closed_when_goroutine_ends
    (MapKeys : reflect.key_order) (r : streamop.StreamOperator) (ctx : Context)
    (items : in_chan) (ch : chan value) (sched : list bool) :
  streamop.input r = Some items ->
  streamop.output r = Some ch ->
  closed ch = false ->
  let e := streamop.Exec MapKeys r ctx sched in
  exists ch' : chan value,
    streamop.GetOutput (streamop.exec_op e) = Some ch' /\
    cap ch' = cap ch /\
    sent ch `prefix_of` sent ch' /\
    (closed ch' = true <-> streamop.exec_go e <> Some Blocked).
Proof.
  intros Hin Hout Hopen.
  rewrite (stream_Exec_with_input MapKeys r ctx _ items Hin). cbv zeta.
  unfold streamop.Exec_go. simpl streamop.output. rewrite Hout.
  destruct (streamop.Exec_loop MapKeys items (Some ch) sched) as [st out] eqn:Hloop.
  apply Exec_loop_grows in Hloop as (pre & ->); [|assumption].
  destruct st; simpl; eexists; (split; [reflexivity|]); simpl;
    (split; [reflexivity|]); (split; [apply prefix_app_r; reflexivity|]);
    split; intros H; congruence.
Qed.

Lemma stream_output_closed_when_goroutine_ends_witness :
  let r := streamop.SetInput streamop.New (Some [Nil]) in
  let e := streamop.Exec keys_in_order r binary_test.TODO [true] in
  exists ch' : chan value,
    streamop.GetOutput (streamop.exec_op e) = Some ch' /\
    cap ch' = 1024%nat /\
    [] `prefix_of` sent ch' /\
    (closed ch' = true <-> streamop.exec_go e <> Some Blocked).
Proof.
  apply (stream_output_closed_when_goroutine_ends keys_in_order
           (streamop.SetInput streamop.New (Some [Nil])) binary_test.TODO
           [Nil] (make 1024) [true]).
  - reflexivity.
  - reflexivity.
  - reflexivity.
Defined.

(** X12. The stream operator in front of the binary operator: when the
    output of a stream operator that has expanded ints, floats, strings,
    stream errors, arrays and slices and has closed its output is the input
    of a Reduce stage, the one value that stage sends is the left fold of its
    operation over the expansions of the items, taken in order. *)
Theorem stream_then_reduce_folds_expansion
    (MapKeys : reflect.key_order) (items : in_chan) (ctx : Context)
    (g : value -> value -> value) (s0 : value) (rest1 rest2 : list bool) :
  Forall indexed_or_scalar items ->
  let e1 := streamop.Exec MapKeys (streamop.SetInput streamop.New (Some items)) ctx
              (undisturbed MapKeys items ++ true :: rest1) in
  let o := binary.SetInput
             (binary.SetOperation (binary.SetInitialState binary.New s0)
                (Some (fun _ op1 op2 => Some (g op1 op2))))
             (downstream (streamop.GetOutput (streamop.exec_op e1))) in
  let e2 := binary.Exec o ctx
              (repeat true (S (length (items ≫= expansion MapKeys))) ++ rest2) in
  binary.exec_err e2 = None /\
  binary.GetOutput (binary.exec_op e2)
  = Some (mkChan 1024 [fold_left g (items ≫= expansion MapKeys) s0] true).
Proof.
  intros Hitems e1 o e2.
  assert (Hin : binary.input o = Some (items ≫= expansion MapKeys)).
  { destruct (stream_Exec_expands_sequences MapKeys
                (streamop.SetInput streamop.New (Some items)) ctx items (make 1024) rest1)
      as (_ & _ & Hout1); auto.
    unfold o, binary.SetInput, binary.with_input, binary.input.
    unfold downstream, streamop.GetOutput, e1. rewrite Hout1. reflexivity. }
  assert (Hfold : forall ys s,
    binary.left_fold (fun _ op1 op2 => Some (g op1 op2)) ctx ys s
    = Some (fold_left g ys s)).
  { induction ys as [|y ys IH]; intros s; simpl; [reflexivity|apply IH]. }
  destruct (Exec_drained o ctx (items ≫= expansion MapKeys) rest2 1024
              (fold_left g (items ≫= expansion MapKeys) s0))
    as (Herr & _ & Hout2 & _); auto.
  - lia.
  - apply Hfold.
Qed.

Lemma stream_then_reduce_folds_expansion_witness :
  let items := [Slice [Str "a"; Str "b"]; Str "c"; Array [Str "d"]] in
  let g := fun op1 op2 =>
             match op1, op2 with Str a, Str b => Str (a +:+ b) | _, _ => Nil end in
  let e1 := streamop.Exec keys_in_order (streamop.SetInput streamop.New (Some items))
              binary_test.TODO (undisturbed keys_in_order items ++ true :: []) in
  let o := binary.SetInput
             (binary.SetOperation (binary.SetInitialState binary.New (Str ""))
                (Some (fun _ op1 op2 => Some (g op1 op2))))
             (downstream (streamop.GetOutput (streamop.exec_op e1))) in
  let e2 := binary.Exec o binary_test.TODO
              (repeat true (S (length (items ≫= expansion keys_in_order))) ++ []) in
  binary.exec_err e2 = None /\
  binary.GetOutput (binary.exec_op e2)
  = Some (mkChan 1024 [fold_left g (items ≫= expansion keys_in_order) (Str "")] true).
Proof.
  apply (stream_then_reduce_folds_expansion keys_in_order
           [Slice [Str "a"; Str "b"]; Str "c"; Array [Str "d"]]
           binary_test.TODO
           (fun op1 op2 =>
              match op1, op2 with Str a, Str b => Str (a +:+ b) | _, _ => Nil end)
           (Str "") [] []).
  repeat constructor.
Defined.

(** The run of the witness above: the order of the items is the order of the
    letters. *)
Example stream_then_reduce_concatenates :
  let items := [Slice [Str "a"; Str "b"]; Str "c"; Array [Str "d"]] in
  let g := fun op1 op2 =>
             match op1, op2 with Str a, Str b => Str (a +:+ b) | _, _ => Nil end in
  fold_left g (items ≫= expansion keys_in_order) (Str "") = Str "abcd".
Proof. reflexivity. Qed.

(** ** The null collector *)

Section NullCollectorFurther.

Import collectors.

Lemma Open_loop_returns_iff sched : forall i : option in_chan,
  (Open_loop i sched = Returned <-> input_ends i sched) /\
  (Open_loop i sched = Returned \/ Open_loop i sched = Blocked).
Proof.
  unfold input_ends.
  induction sched as [|b sched IH]; intros i.
  - simpl. split; [|auto]. split; [discriminate|].
    intros [[]|H]. destruct i; [simpl in H; lia|destruct H].
  - destruct b; simpl.
    + destruct i as [[|x items]|].
      * split; [|auto]. split; [|reflexivity]. intros _. right. simpl. lia.
      * destruct (IH (Some items)) as [Hiff Hcases]. split; [|exact Hcases].
        rewrite Hiff. simpl. split.
        -- intros [H|H]; [left; right; exact H|right; lia].
        -- intros [[H|H]|H]; [discriminate|left; exact H|right; lia].
      * destruct (IH None) as [Hiff Hcases]. split; [|exact Hcases].
        rewrite Hiff. split.
        -- intros [H|[]]. left; right; exact H.
        -- intros [[H|H]|[]]; [discriminate|left; exact H].
    + split; [|auto]. split; [|reflexivity]. intros _. left; left; reflexivity.
Qed.

End NullCollectorFurther.




(** While the null collector still waits for input its channel is open: a
    collector that closed the channel before draining, or never closed it,
    would not keep the contract. *)
Example null_collector_open_while_draining :
  let s := collectors.SetInput collectors.Null (Some [Int 1; Int 2]) in
  collectors.open_result (collectors.Open s binary_test.TODO [true; true])
  = Some (mkChan 0 [] false) /\
  collectors.open_go (collectors.Open s binary_test.TODO [true; true]) = Blocked.
Proof. split; reflexivity. Qed.

(** X13. The goroutine of the null collector never panics and sends no
    error.  It returns, and closes the channel Open returned, exactly when the
    context is done at some point or the input, if one was set, is read to
    its close; otherwise it stays blocked and the channel stays open.  A
    collector on which SetInput was never called thus only ends by
    cancellation. *)
Theorem null_collector_returns_exactly_when_input_ends
    (s : collectors.NullCollector) (ctx : Context) (sched : list bool) :
  let r := collectors.Open s ctx sched in
  (collectors.open_go r = Returned <-> input_ends (collectors.input s) sched) /\
  (collectors.open_go r = Returned /\
     collectors.open_result r = Some (mkChan 0 [] true)
   \/ collectors.open_go r = Blocked /\
      collectors.open_result r = Some (mkChan 0 [] false)).
Proof.
  destruct (Open_loop_returns_iff sched (collectors.input s)) as [Hiff Hcases].
  unfold collectors.Open; simpl.
  destruct (collectors.Open_loop (collectors.input s) sched) eqn:Hloop; simpl.
  - split; [|left; auto]. rewrite <- Hiff. tauto.
  - split; [|right; auto]. rewrite <- Hiff. split; intros H; discriminate H.
  - destruct Hcases as [H|H]; discriminate H.
Qed.

(** Without an input the collector waits for the context. *)
Example null_collector_without_input :
  collectors.open_go (collectors.Open collectors.Null binary_test.TODO (repeat true 5))
  = Blocked /\
  collectors.open_go (collectors.Open collectors.Null binary_test.TODO [true; true; false])
  = Returned.
Proof. split; reflexivity. Qed.

(** ** stream/stream_batch.go *)

Section StreamBatch.

Import stream_batch.

Lemma do_call_appends s c :
  do_call s c = mkStream (ctx s) (ops s ++ [stage (ctx s) c]).
Proof. destruct c; reflexivity. Qed.

End StreamBatch.

(** X14. Batch, GroupByKey, GroupByName, GroupByPos and SortByKey each append
    one operator, made with the context of the stream, at the end of the
    stream's operators: after any chain of these calls the operators are
    those the stream had, untouched, followed by one operator per call in the
    order of the calls, and the context is the same. *)
Theorem stream_batch_methods_append_in_call_order
    (s : stream_batch.Stream) (cs : list stream_batch.call) :
  let s' := fold_left stream_batch.do_call cs s in
  stream_batch.ops s' = stream_batch.ops s ++ (stream_batch.stage (stream_batch.ctx s) <$> cs) /\
  stream_batch.ctx s' = stream_batch.ctx s /\
  length (stream_batch.ops s') = (length (stream_batch.ops s) + length cs)%nat.
Proof.
  simpl. revert s.
  induction cs as [|c cs IH]; intros s; simpl.
  - rewrite app_nil_r. repeat split. lia.
  - rewrite do_call_appends.
    destruct (IH (stream_batch.mkStream (stream_batch.ctx s)
                    (stream_batch.ops s ++ [stream_batch.stage (stream_batch.ctx s) c])))
      as (Hops & Hctx & Hlen).
    simpl in Hops, Hctx, Hlen.
    split; [|split].
    + rewrite Hops, <- app_assoc. reflexivity.
    + exact Hctx.
    + rewrite Hlen, length_app. simpl. lia.
Qed.

(** ** The binary operator without an operation, and the operations of the tests *)

(** X15. With no operation set, Exec does not read the input at all: on any
    schedule, even the empty one, its goroutine sends the initial state as the
    one value of the output, closes the output, and says so to the log
    function of the context, if there is one. *)
Theorem binary_without_operation_emits_initial_state
    (o : binary.BinaryOperator) (ctx : Context) (items : in_chan)
    (sched : list bool) (c : nat) :
  binary.op o = None ->
  binary.input o = Some items ->
  binary.output o = Some (make c) ->
  (0 < c)%nat ->
  let r := binary.Exec o ctx sched in
  binary.exec_err r = None /\
  binary.exec_go r = Some Returned /\
  binary.GetOutput (binary.exec_op r) = Some (mkChan c [binary.state o] true) /\
  (forall lf, ctx_logf ctx = Some lf ->
     In (Logged lf (Str "Binary operator has no operation")) (binary.exec_events r)).
Proof.
  intros Hop Hin Hout Hc r.
  destruct (Exec_no_operation o ctx items sched c Hop Hin Hout Hc)
    as (Herr & Hgo & Hsent & _).
  fold r in Herr, Hgo, Hsent. repeat split; auto.
  intros lf Hlf. unfold r, binary.Exec; simpl. rewrite Hin.
  unfold binary.Exec_go, binary.doOp; simpl. rewrite Hop; simpl.
  unfold binary.Exec_deferred; simpl. rewrite Hout; simpl.
  destruct c as [|c]; [lia|]. simpl.
  unfold autoctx.GetLogFunc. rewrite Hlf. simpl. auto.
Qed.

Lemma binary_without_operation_emits_initial_state_witness :
  let o := binary.SetInput (binary.SetInitialState binary.New (Int 5))
             (Some [Int 1; Int 2]) in
  let r := binary.Exec o binary_test.logging [] in
  binary.exec_err r = None /\
  binary.exec_go r = Some Returned /\
  binary.GetOutput (binary.exec_op r) = Some (mkChan 1024 [Int 5] true) /\
  (forall lf, ctx_logf binary_test.logging = Some lf ->
     In (Logged lf (Str "Binary operator has no operation")) (binary.exec_events r)).
Proof.
  apply (binary_without_operation_emits_initial_state
           (binary.SetInput (binary.SetInitialState binary.New (Int 5))
              (Some [Int 1; Int 2]))
           binary_test.logging [Int 1; Int 2] [] 1024).
  - reflexivity.
  - reflexivity.
  - reflexivity.
  - lia.
Defined.

Section TestOperations.

Import binary.

Variable ctx : Context.

Lemma add_all_fold zs : forall init,
  binary_test.add_all (Int <$> zs) init = Some (fold_left add_wrapped zs init).
Proof. induction zs as [|z zs IH]; intros init; simpl; [reflexivity|apply IH]. Qed.

Lemma left_fold_op_add zs : forall init,
  left_fold binary_test.op_add ctx (Int <$> zs) (Int init)
  = Some (Int (fold_left add_wrapped zs init)).
Proof. induction zs as [|z zs IH]; intros init; simpl; [reflexivity|apply IH]. Qed.

Lemma left_fold_op_sum_slice zss : forall init,
  left_fold binary_test.op_sum_slice ctx ((fun zs => Slice (Int <$> zs)) <$> zss) (Int init)
  = Some (Int (fold_left add_wrapped (concat zss) init)).
Proof.
  induction zss as [|zs zss IH]; intros init; simpl; [reflexivity|].
  rewrite add_all_fold. simpl. rewrite IH, fold_left_app. reflexivity.
Qed.

Lemma expansion_of_slices MapKeys zss :
  ((fun zs => Slice (Int <$> zs)) <$> zss) ≫= expansion MapKeys = Int <$> concat zss.
Proof.
  induction zss as [|zs zss IH]; [reflexivity|].
  rewrite fmap_cons, bind_cons, IH. simpl. rewrite fmap_app. reflexivity.
Qed.

End TestOperations.

(** X16. The test of Exec, for any batches: reducing slices of ints with the
    operation of TestBinaryOp_Exec sends the same value as passing the slices
    through the stream operator and reducing the ints with the operation of
    the benchmark, namely the wrapped sum of all the ints added to the initial
    state. *)
Theorem batches_reduce_as_their_expansion
    (MapKeys : reflect.key_order) (zss : list (list Z)) (init : Z) (ctx : Context)
    (rest1 rest2 rest3 : list bool) :
  (forall m : gmap key value, MapKeys m ≡ₚ (map_to_list m).*1) ->
  let batches := (fun zs => Slice (Int <$> zs)) <$> zss in
  let direct :=
    binary.Exec (binary_test.reduce binary_test.op_sum_slice (Int init) batches) ctx
      (repeat true (S (length batches)) ++ rest1) in
  let expanded :=
    streamop.Exec MapKeys (streamop.SetInput streamop.New (Some batches)) ctx
      (undisturbed MapKeys batches ++ true :: rest2) in
  let flat :=
    binary.Exec
      (binary.SetInput
         (binary.SetOperation (binary.SetInitialState binary.New (Int init))
            (Some binary_test.op_add))
         (downstream (streamop.GetOutput (streamop.exec_op expanded))))
      ctx (repeat true (S (length (concat zss))) ++ rest3) in
  binary.GetOutput (binary.exec_op direct)
  = Some (mkChan 1024 [Int (fold_left add_wrapped (concat zss) init)] true) /\
  binary.GetOutput (binary.exec_op flat) = binary.GetOutput (binary.exec_op direct).
Proof.
  intros Hkeys batches direct expanded flat.
  assert (Hdirect : binary.GetOutput (binary.exec_op direct)
            = Some (mkChan 1024 [Int (fold_left add_wrapped (concat zss) init)] true)).
  { destruct (Exec_drained
                (binary_test.reduce binary_test.op_sum_slice (Int init) batches) ctx
                batches rest1 1024 (Int (fold_left add_wrapped (concat zss) init)))
      as (_ & _ & Hout & _); auto; [lia|].
    apply left_fold_op_sum_slice. }
  split; [exact Hdirect|]. rewrite Hdirect.
  assert (Hnonnil : Forall (fun item => item <> Nil) batches).
  { apply Forall_forall. intros item Hitem.
    apply list_elem_of_fmap in Hitem as (zs & -> & _). discriminate. }
  destruct (stream_Exec_expands MapKeys
              (streamop.SetInput streamop.New (Some batches)) ctx batches (make 1024) rest2)
    as (_ & _ & Hout1); auto.
  fold expanded in Hout1.
  unfold batches in Hout1. rewrite expansion_of_slices in Hout1.
  destruct (Exec_drained
              (binary.SetInput
                 (binary.SetOperation (binary.SetInitialState binary.New (Int init))
                    (Some binary_test.op_add))
                 (downstream (streamop.GetOutput (streamop.exec_op expanded))))
              ctx (Int <$> concat zss) rest3 1024
              (Int (fold_left add_wrapped (concat zss) init)))
    as (_ & _ & Hout2 & _); auto.
  - unfold downstream, streamop.GetOutput. rewrite Hout1. reflexivity.
  - lia.
  - apply left_fold_op_add.
  - rewrite length_fmap in Hout2. exact Hout2.
Qed.

Lemma batches_reduce_as_their_expansion_witness :
  let batches := (fun zs => Slice (Int <$> zs)) <$> [[1]; [1; 2]; [1; 2; 3]] in
  let direct :=
    binary.Exec (binary_test.reduce binary_test.op_sum_slice (Int 0) batches)
      binary_test.TODO (repeat true (S (length batches)) ++ []) in
  let expanded :=
    streamop.Exec keys_in_order (streamop.SetInput streamop.New (Some batches))
      binary_test.TODO (undisturbed keys_in_order batches ++ true :: []) in
  let flat :=
    binary.Exec
      (binary.SetInput
         (binary.SetOperation (binary.SetInitialState binary.New (Int 0))
            (Some binary_test.op_add))
         (downstream (streamop.GetOutput (streamop.exec_op expanded))))
      binary_test.TODO (repeat true (S (length (concat [[1]; [1; 2]; [1; 2; 3]]))) ++ []) in
  binary.GetOutput (binary.exec_op direct)
  = Some (mkChan 1024
            [Int (fold_left add_wrapped (concat [[1]; [1; 2]; [1; 2; 3]]) 0)] true) /\
  binary.GetOutput (binary.exec_op flat) = binary.GetOutput (binary.exec_op direct).
Proof.
  apply (batches_reduce_as_their_expansion keys_in_order [[1]; [1; 2]; [1; 2; 3]] 0
           binary_test.TODO [] [] []).
  intros m. reflexivity.
Defined.
